(** * ABC/XYZ inventory classification: a shallow embedding of
      [abc_rep_clean.py] and the properties of its classification core.

    The script is a linear pandas pipeline.  Each stage is embedded as a
    function on lists of rows, in the order of the source:

    - lines 29-40: required columns check and category column resolution;
    - lines 43-52: cleaning and the category filter;
    - lines 55-58: group-by totals, descending sort, cumulative share, ABC;
    - lines 61-67: monthly quantities, pivot, coefficient of variation,
                   join, XYZ and the combined segment;
    - lines 70-72: the segment filter;
    - lines 76-88: the replenishment table and its lookup.

    Numbers.  A float64 cell is either finite or one of the special values
    of IEEE arithmetic (NaN, plus or minus infinity).  Finite values are
    idealised as exact rationals: sums, quotients and comparisons are the
    mathematical ones, without rounding, and zero has no sign.  The
    special values are kept, because the script relies on them: [0/0] is
    NaN, a failed join leaves NaN, and every comparison with NaN is false.
    The sales and quantities read from the file are finite.

    Where a property depends on the rounding of float64, the same
    computation is given a second time with every operation followed by
    a rounding ([cum_pct_col_r], [cv_of_row_r]), and a third time on
    binary64 itself ([Binary64]), to run the code's arithmetic at the
    values the properties name.

    Item ids, descriptions and categories are text. *)

From Stdlib Require Import QArith Qround Lqa ZArith List Bool Permutation Sorted.
From Stdlib Require Import String Ascii Floats.
From Stdlib Require OrderedTypeEx.
From stdpp Require Import base gmap strings list sorting.

Local Open Scope Q_scope.

(** ** Float cells *)

Inductive fnum : Type :=
| Fin (q : Q)
| PInf
| NInf
| NaN.

(** Equality of cells up to the representation of the rational; NaN is
    only compared with itself here (this is the meta-level "same cell",
    not Python's [==]). *)
Definition feq (x y : fnum) : Prop :=
  match x, y with
  | Fin a, Fin b => a == b
  | PInf, PInf | NInf, NInf | NaN, NaN => True
  | _, _ => False
  end.

(** The order of IEEE numbers as a proposition: NaN is unordered. *)
Definition fle (x y : fnum) : Prop :=
  match x, y with
  | NaN, _ | _, NaN => False
  | NInf, _ => True
  | _, PInf => True
  | Fin a, Fin b => a <= b
  | _, _ => False
  end.

Definition flt (x y : fnum) : Prop :=
  match x, y with
  | NaN, _ | _, NaN => False
  | PInf, _ => False
  | _, NInf => False
  | Fin a, Fin b => a < b
  | _, _ => True
  end.

(** Python's [x <= y] on floats. *)
Definition fleb (x y : fnum) : bool :=
  match x, y with
  | NaN, _ | _, NaN => false
  | NInf, _ => true
  | _, PInf => true
  | Fin a, Fin b => Qle_bool a b
  | _, _ => false
  end.

(** numpy's float division: no exception, [0/0] is NaN and [x/0] an
    infinity with the sign of [x] (a zero divisor is a sum of the script
    and is never the negative zero when [x] is not zero). *)
Definition fdiv (x y : fnum) : fnum :=
  match x, y with
  | NaN, _ | _, NaN => NaN
  | Fin a, Fin b =>
      if Qeq_bool b 0 then
        (if Qeq_bool a 0 then NaN else if Qle_bool 0 a then PInf else NInf)
      else Fin (a / b)
  | Fin _, (PInf | NInf) => Fin 0
  | PInf, Fin b => if Qle_bool 0 b then PInf else NInf
  | NInf, Fin b => if Qle_bool 0 b then NInf else PInf
  | (PInf | NInf), (PInf | NInf) => NaN
  end.

(** [Series.fillna(0)] and [Series.replace(0, np.nan)] on one cell. *)
Definition fillna0 (x : fnum) : fnum :=
  match x with NaN => Fin 0 | _ => x end.

Definition replace0nan (x : fnum) : fnum :=
  match x with
  | Fin a => if Qeq_bool a 0 then NaN else x
  | _ => x
  end.

(** ** The two threshold lambdas (lines 58 and 66) *)

Definition abc_label (x : fnum) : string :=
  if fleb x (Fin (7 # 10)) then "A"
  else if fleb x (Fin (9 # 10)) then "B" else "C".

Definition xyz_label (c : fnum) : string :=
  if fleb c (Fin (1 # 2)) then "X"
  else if fleb c (Fin 1) then "Y" else "Z".

(** The same two lambdas on binary64 floats, as Python evaluates them. *)
Module Binary64.

#[local] Set Warnings "-inexact-float".

Definition abc_label (x : float) : string :=
  if (x <=? 0.7)%float then "A"
  else if (x <=? 0.9)%float then "B" else "C".

Definition xyz_label (c : float) : string :=
  if (c <=? 0.5)%float then "X"
  else if (c <=? 1.0)%float then "Y" else "Z".

(** Lines 56-57 on a column of binary64 sales: the running sums add in
    row order; [sum] adds in row order too, which is numpy's order for a
    column of fewer than eight rows. *)
Fixpoint cumsum_from (acc : float) (l : list float) : list float :=
  match l with
  | [] => []
  | x :: l' => (acc + x)%float :: cumsum_from (acc + x)%float l'
  end.

Definition cumsum (l : list float) : list float :=
  match l with
  | [] => []
  | x :: l' => x :: cumsum_from x l'
  end.

Definition sum (l : list float) : float := fold_left PrimFloat.add l 0%float.

Definition cum_pct_col (col : list float) : list float :=
  map (fun c => (c / sum col)%float) (cumsum col).

(** Lines 63-64 on one line of the pivot, in binary64: pandas' mean, its
    two-pass standard deviation ([ddof=1]), [replace(0, nan)] and
    [fillna(0)]. *)
Definition of_nat (n : nat) : float :=
  PrimFloat.of_uint63 (Uint63.of_Z (Z.of_nat n)).

Definition mean (l : list float) : float :=
  match l with
  | [] => nan
  | _ => (sum l / of_nat (length l))%float
  end.

Definition std (l : list float) : float :=
  if (length l <=? 1)%nat then nan
  else
    let m := (sum l / of_nat (length l))%float in
    PrimFloat.sqrt
      (sum (map (fun x => ((x - m) * (x - m))%float) l)
       / of_nat (length l - 1))%float.

Definition replace0nan (x : float) : float :=
  if (x =? 0)%float then nan else x.

Definition fillna0 (x : float) : float :=
  if PrimFloat.is_nan x then 0%float else x.

Definition cv_of_row (l : list float) : float :=
  fillna0 (std l / replace0nan (mean l))%float.

End Binary64.

(** ** Outcomes of the script *)

(** A stage either finishes, stops the run ([st.stop()] after the error
    box of line 32), or raises (pandas' date parser on a bad date, line
    67 on a table without groups). *)
Inductive outcome (T : Type) : Type :=
| Done (v : T)
| Stopped (msg : string)
| Raised (exn : string).
Arguments Done {T} v.
Arguments Stopped {T} msg.
Arguments Raised {T} exn.

Definition obind {T U : Type} (o : outcome T) (k : T -> outcome U) : outcome U :=
  match o with
  | Done v => k v
  | Stopped m => Stopped m
  | Raised e => Raised e
  end.

Notation "'let*' x ':=' o 'in' k" := (obind o (fun x => k))
  (at level 10, x name, o at level 99, k at level 200).

(** ** Input table *)

Record timestamp : Type := mkdate { year : Z; month : Z; day : Z }.

(** The bucket of [pd.Grouper(freq="ME")]: the calendar month. *)
Definition month_end (d : timestamp) : Z * Z := (year d, month d).

(** A date cell, as [pd.to_datetime] reads it in its column.  pandas
    infers one format for the whole column, from its first cell:
    [DateValue d] is a cell that it reads as [d] with that format, and
    [DateUnparsable] a cell on which it raises, text that is no date as
    well as a date written in another format than the column's. *)
Inductive date_cell : Type :=
| DateValue (d : timestamp)
| DateMissing
| DateUnparsable.

(** A row as loaded: an empty cell is [None]; a sales or quantity cell
    that is not a number is [None] as well ([errors="coerce"] turns both
    into NaN).  [raw_extra] holds the other text columns by name. *)
Record raw_row : Type := mkraw {
  raw_item_id : option string;
  raw_description : option string;
  raw_sales : option Q;
  raw_qty : option Q;
  raw_date : date_cell;
  raw_extra : gmap string string
}.

Record frame : Type := mkframe {
  columns : list string;
  rows : list raw_row
}.

(** A row after the cleaning of lines 43-45. *)
Record row : Type := mkrow {
  item_id : option string;
  description : option string;
  sales : Q;
  qty : Q;
  date : option timestamp;
  extra : gmap string string
}.

(** ** Lines 29-40: required columns and the category column *)

Definition required_cols : gset string :=
  {[ "item_id"; "description"; "sales"; "qty"; "date" ]}.

Definition category_candidates : list string :=
  ["category"; "Category"; "group"; "Group"; "description"].

Definition has_required (cols : list string) : bool :=
  bool_decide (required_cols ⊆ list_to_set cols).

(** The [for ... break] loop: the first candidate that is a column. *)
Definition resolve_category (cols : list string) : option string :=
  List.find (fun col => bool_decide (col ∈ cols)) category_candidates.

(** ** Lines 43-52: cleaning and the category filter *)

Definition to_datetime (c : date_cell) : outcome (option timestamp) :=
  match c with
  | DateValue d => Done (Some d)
  | DateMissing => Done None
  | DateUnparsable => Raised "ValueError"
  end.

(** [pd.to_numeric(..., errors="coerce").fillna(0)] on one cell. *)
Definition to_numeric_fillna0 (c : option Q) : Q :=
  match c with Some q => q | None => 0 end.

Fixpoint parse_dates (rs : list raw_row) : outcome (list (option timestamp)) :=
  match rs with
  | [] => Done []
  | r :: rs' =>
      let* d := to_datetime (raw_date r) in
      let* ds := parse_dates rs' in
      Done (d :: ds)
  end.

Definition clean (rs : list raw_row) : outcome (list row) :=
  let* ds := parse_dates rs in
  Done (zip_with (fun r d =>
          mkrow (raw_item_id r) (raw_description r)
                (to_numeric_fillna0 (raw_sales r))
                (to_numeric_fillna0 (raw_qty r)) d (raw_extra r)) rs ds).

Definition cell_text (col : string) (r : row) : option string :=
  if String.eqb col "description" then description r else extra r !! col.

Definition category_filter (category_col : option string)
    (selected_cat : string) (df : list row) : list row :=
  match category_col with
  | Some col =>
      if String.eqb selected_cat "All" then df
      else filter (fun r => cell_text col r = Some selected_cat) df
  | None => df
  end.

(** Lines 49-50: the choices offered for the category,
    [["All"] + sorted(unique_categories.tolist())], without the empty
    cells ([dropna]).  The order relation is declared here because the
    list is sorted. *)
Definition string_le (a b : string) : Prop := String.leb a b = true.

#[global] Instance string_le_dec : RelDecision string_le.
Proof. intros a b. unfold string_le. apply _. Defined.

Definition category_options (col : string) (df : list row) : list string :=
  "All"%string :: merge_sort string_le (remove_dups (omap (cell_text col) df)).

(** ** Line 55: totals per (item_id, description) *)

Record agg_row : Type := mkagg {
  a_item_id : string;
  a_description : string;
  a_sales : Q;
  a_qty : Q
}.

Definition key_compare (i1 d1 i2 d2 : string) : comparison :=
  match String.compare i1 i2 with
  | Eq => String.compare d1 d2
  | c => c
  end.

(** The group table is kept ordered by key ([groupby] sorts its keys);
    a row with a known key adds to that key's sums in row order.  Keys
    are compared as text; pandas compares ids that are all numbers as
    numbers.  Line 56 sorts the table again, and no property below
    states the order of the groups. *)
Fixpoint upsert (i d : string) (s q : Q) (t : list agg_row) : list agg_row :=
  match t with
  | [] => [mkagg i d s q]
  | r :: t' =>
      match key_compare i d (a_item_id r) (a_description r) with
      | Eq => mkagg i d (a_sales r + s) (a_qty r + q) :: t'
      | Lt => mkagg i d s q :: t
      | Gt => r :: upsert i d s q t'
      end
  end.

(** Rows whose item_id or description is missing belong to no group. *)
Definition groupby_sum (df : list row) : list agg_row :=
  fold_left (fun t r =>
    match item_id r, description r with
    | Some i, Some d => upsert i d (sales r) (qty r) t
    | _, _ => t
    end) df [].

(** ** Lines 56-58: sort, cumulative share, ABC *)

Definition sum (l : list Q) : Q := fold_left Qplus l 0.

Fixpoint cumsum_from (acc : Q) (l : list Q) : list Q :=
  match l with
  | [] => []
  | x :: l' => (acc + x) :: cumsum_from (acc + x) l'
  end.

Definition cumsum (l : list Q) : list Q :=
  match l with
  | [] => []
  | x :: l' => x :: cumsum_from x l'
  end.

(** [col.cumsum() / col.sum()], without rounding. *)
Definition cum_pct_col (col : list Q) : list fnum :=
  map (fun c => fdiv (Fin c) (Fin (sum col))) (cumsum col).

Record abc_row : Type := mkabc {
  agg : agg_row;
  cum_pct : fnum;
  ABC : string
}.

(** [sort_values] is pandas' [sort_values(by="sales", ascending=False)]
    with its default algorithm; it is a parameter of the model, and the
    theorems say what they need of it. *)
Definition abc_classification (sort_values : list agg_row -> list agg_row)
    (df : list row) : list abc_row :=
  let agg := sort_values (groupby_sum df) in
  zip_with (fun r x => mkabc r x (abc_label x))
           agg (cum_pct_col (map a_sales agg)).

(** ** Lines 61-64: monthly quantities, pivot, coefficient of variation *)

(** Sum of qty per (item_id, month); rows without item_id or without a
    date (NaT) belong to no group. *)
Definition monthly_qty (df : list row) : gmap (string * (Z * Z)) Q :=
  fold_left (fun m r =>
    match item_id r, date r with
    | Some i, Some d =>
        let k := (i, month_end d) in
        <[ k := match m !! k with Some s => s + qty r | None => qty r end ]> m
    | _, _ => m
    end) df ∅.

Definition month_le (a b : Z * Z) : Prop :=
  (a.1 < b.1)%Z \/ (a.1 = b.1 /\ (a.2 <= b.2)%Z).

#[global] Instance month_le_dec : RelDecision month_le.
Proof. intros a b. unfold month_le. apply _. Defined.

(** The pivot's columns: the months seen in the data, in date order. *)
Definition pivot_columns (df : list row) : list (Z * Z) :=
  merge_sort month_le (elements (set_map (D:=gset (Z * Z)) snd (dom (monthly_qty df)))).

(** The pivot's index: the items of the monthly table. *)
Definition pivot_index (df : list row) : gset string :=
  set_map fst (dom (monthly_qty df)).

(** One line of the pivot, after [fillna(0)]. *)
Definition pivot_row (df : list row) (i : string) : list Q :=
  map (fun m => match monthly_qty df !! (i, m) with Some q => q | None => 0 end)
      (pivot_columns df).

Definition pivot (df : list row) : gmap string (list Q) :=
  set_to_map (fun i => (i, pivot_row df i)) (pivot_index df).

Definition Qofnat (n : nat) : Q := inject_Z (Z.of_nat n).

(** [mean(axis=1)]: NaN on an empty line. *)
Definition mean (l : list Q) : fnum :=
  match l with
  | [] => NaN
  | _ => Fin (sum l / Qofnat (length l))
  end.

(** [std(axis=1)], pandas' default [ddof=1]: NaN below two values.
    [sqrt] is numpy's square root, a parameter of the model. *)
Definition std (sqrt : Q -> Q) (l : list Q) : fnum :=
  if (length l <=? 1)%nat then NaN
  else
    let m := sum l / Qofnat (length l) in
    Fin (sqrt (sum (map (fun x => (x - m) * (x - m)) l)
               / Qofnat (length l - 1))).

(** Lines 63-64 on one line of the pivot. *)
Definition cv_of_row (sqrt : Q -> Q) (l : list Q) : fnum :=
  fillna0 (fdiv (std sqrt l) (replace0nan (mean l))).

Definition cv (sqrt : Q -> Q) (df : list row) : gmap string fnum :=
  cv_of_row sqrt <$> pivot df.

(** ** Lines 56-57 and 63-64 with the rounding of float64 *)

(** The same computations, each operation followed by the rounding of
    its exact result to a float64.  [rnd] is that rounding (to the
    nearest float, an infinity on overflow); [sqrt_r] is numpy's square
    root, already rounded; [sum_f] is pandas' [sum], whose order of
    addition is numpy's.  The three are parameters, and the theorems say
    what they need of them.  With [rnd := Fin] these are the exact
    computations above. *)

Definition is_finite (x : fnum) : Prop :=
  match x with Fin _ => True | _ => False end.

Definition fneg (x : fnum) : fnum :=
  match x with
  | Fin a => Fin (- a)
  | PInf => NInf
  | NInf => PInf
  | NaN => NaN
  end.

Definition fadd_r (rnd : Q -> fnum) (x y : fnum) : fnum :=
  match x, y with
  | NaN, _ | _, NaN => NaN
  | Fin a, Fin b => rnd (a + b)
  | PInf, NInf | NInf, PInf => NaN
  | PInf, _ | _, PInf => PInf
  | NInf, _ | _, NInf => NInf
  end.

Definition fsub_r (rnd : Q -> fnum) (x y : fnum) : fnum :=
  fadd_r rnd x (fneg y).

Definition fmul_r (rnd : Q -> fnum) (x y : fnum) : fnum :=
  match x, y with
  | NaN, _ | _, NaN => NaN
  | Fin a, Fin b => rnd (a * b)
  | Fin a, PInf | PInf, Fin a =>
      if Qeq_bool a 0 then NaN else if Qle_bool 0 a then PInf else NInf
  | Fin a, NInf | NInf, Fin a =>
      if Qeq_bool a 0 then NaN else if Qle_bool 0 a then NInf else PInf
  | PInf, PInf | NInf, NInf => PInf
  | PInf, NInf | NInf, PInf => NInf
  end.

Definition fdiv_r (rnd : Q -> fnum) (x y : fnum) : fnum :=
  match x, y with
  | NaN, _ | _, NaN => NaN
  | Fin a, Fin b =>
      if Qeq_bool b 0 then
        (if Qeq_bool a 0 then NaN else if Qle_bool 0 a then PInf else NInf)
      else rnd (a / b)
  | Fin _, (PInf | NInf) => Fin 0
  | PInf, Fin b => if Qle_bool 0 b then PInf else NInf
  | NInf, Fin b => if Qle_bool 0 b then NInf else PInf
  | (PInf | NInf), (PInf | NInf) => NaN
  end.

Definition fsqrt_r (sqrt_r : Q -> fnum) (x : fnum) : fnum :=
  match x with
  | Fin a => if Qle_bool 0 a then sqrt_r a else NaN
  | PInf => PInf
  | NInf | NaN => NaN
  end.

Fixpoint cumsum_from_r (rnd : Q -> fnum) (acc : fnum) (l : list fnum)
    : list fnum :=
  match l with
  | [] => []
  | x :: l' => fadd_r rnd acc x :: cumsum_from_r rnd (fadd_r rnd acc x) l'
  end.

Definition cumsum_r (rnd : Q -> fnum) (l : list fnum) : list fnum :=
  match l with
  | [] => []
  | x :: l' => x :: cumsum_from_r rnd x l'
  end.

(** A sum in row order, one of the orders [sum_f] can stand for. *)
Definition sum_r (rnd : Q -> fnum) (l : list fnum) : fnum :=
  fold_left (fadd_r rnd) l (Fin 0).

(** [col.cumsum() / col.sum()] *)
Definition cum_pct_col_r (rnd : Q -> fnum) (sum_f : list fnum -> fnum)
    (col : list fnum) : list fnum :=
  map (fun c => fdiv_r rnd c (sum_f col)) (cumsum_r rnd col).

Definition mean_r (rnd : Q -> fnum) (sum_f : list fnum -> fnum)
    (l : list fnum) : fnum :=
  match l with
  | [] => NaN
  | _ => fdiv_r rnd (sum_f l) (Fin (Qofnat (length l)))
  end.

Definition std_r (rnd : Q -> fnum) (sqrt_r : Q -> fnum)
    (sum_f : list fnum -> fnum) (l : list fnum) : fnum :=
  if (length l <=? 1)%nat then NaN
  else
    let m := fdiv_r rnd (sum_f l) (Fin (Qofnat (length l))) in
    fsqrt_r sqrt_r
      (fdiv_r rnd
         (sum_f (map (fun x => fmul_r rnd (fsub_r rnd x m) (fsub_r rnd x m)) l))
         (Fin (Qofnat (length l - 1)))).

Definition cv_of_row_r (rnd : Q -> fnum) (sqrt_r : Q -> fnum)
    (sum_f : list fnum -> fnum) (l : list fnum) : fnum :=
  fillna0 (fdiv_r rnd (std_r rnd sqrt_r sum_f l)
                  (replace0nan (mean_r rnd sum_f l))).

(** ** Lines 65-67: join, XYZ, segment *)

Record cls_row : Type := mkcls {
  abc : abc_row;
  CV : fnum;
  XYZ : string;
  ABC_XYZ : string
}.

(** The left join on item_id: an item without a line in [cv] gets NaN. *)
Definition join_cv (series : gmap string fnum) (r : abc_row) : fnum :=
  match series !! a_item_id (agg r) with
  | Some c => c
  | None => NaN
  end.

Definition classify (sort_values : list agg_row -> list agg_row)
    (sqrt : Q -> Q) (df : list row) : list cls_row :=
  map (fun r =>
         let c := join_cv (cv sqrt df) r in
         let x := xyz_label c in
         mkcls r c x (ABC r ++ "/" ++ x)%string)
      (abc_classification sort_values df).

(** ** Lines 70-72: the segment filter *)

Definition segment_filter (selected_abcxyz : list string)
    (t : list cls_row) : list cls_row :=
  filter (fun r => ABC_XYZ r ∈ selected_abcxyz) t.

(** Lines 70-71: the choices offered, [sorted(unique_abcxyz)], which are
    also the default selection. *)
Definition default_abcxyz (t : list cls_row) : list string :=
  merge_sort string_le (remove_dups (map ABC_XYZ t)).

(** ** Lines 76-88: the replenishment table *)

Definition replenishment_rules : gmap string string :=
  list_to_map [
    ("A/X", "Reorder weekly with tight safety stock control.");
    ("A/Y", "Reorder bi-weekly using smoothed demand forecast.");
    ("A/Z", "Manual review monthly with cautious reorder quantity.");
    ("B/X", "Reorder bi-weekly with fixed reorder point.");
    ("B/Y", "Monitor monthly; reorder with buffer stock.");
    ("B/Z", "Review quarterly with manual override.");
    ("C/X", "Low-priority reorder, maintain minimum stock.");
    ("C/Y", "Replenish only with demand signal.");
    ("C/Z", "Do not replenish unless justified by exception.")
  ]%string.

(** [Series.map(dict)] on one value: a key that is not in the dict maps
    to a missing value ([None]); nothing is raised. *)
Definition policy_resolver (segment : string) : option string :=
  replenishment_rules !! segment.

Record out_row : Type := mkout {
  cls : cls_row;
  Replenishment_Advice : option string
}.

Definition with_advice (t : list cls_row) : list out_row :=
  map (fun r => mkout r (policy_resolver (ABC_XYZ r))) t.

(** ** The whole run *)

(** On a table without any group (no row, or no row with both an item_id
    and a description) the columns of labels are empty columns of
    floats, and line 67 raises when it adds the text "/" to one. *)
Definition run (sort_values : list agg_row -> list agg_row) (sqrt : Q -> Q)
    (f : frame) (selected_cat : string) (selected_abcxyz : list string)
    : outcome (list out_row) :=
  if has_required (columns f) then
    let category_col := resolve_category (columns f) in
    let* df := clean (rows f) in
    let df := category_filter category_col selected_cat df in
    match groupby_sum df with
    | [] => Raised "TypeError"
    | _ => Done (with_advice (segment_filter selected_abcxyz
                                (classify sort_values sqrt df)))
    end
  else Stopped "Missing columns.".

(** Lines 9-13, 22 and 129-130 around the run: without an API key in the
    environment (unset, or empty) the script stops at once; without an
    uploaded file it shows a notice and computes nothing ([None]). *)
Definition script (api_key : option string) (uploaded_file : option frame)
    (sort_values : list agg_row -> list agg_row) (sqrt : Q -> Q)
    (selected_cat : string) (selected_abcxyz : list string)
    : outcome (option (list out_row)) :=
  match api_key with
  | None => Stopped "OPENAI_API_KEY not found."
  | Some key =>
      if String.eqb key "" then Stopped "OPENAI_API_KEY not found."
      else
        match uploaded_file with
        | None => Done None
        | Some f =>
            let* t := run sort_values sqrt f selected_cat selected_abcxyz in
            Done (Some t)
        end
  end.

(** The nine segments. *)
Definition nine_segments : list string :=
  ["A/X"; "A/Y"; "A/Z"; "B/X"; "B/Y"; "B/Z"; "C/X"; "C/Y"; "C/Z"]%string.

(** What the theorems ask of [sort_values]: its result is a permutation
    of the table, and its sales column is in descending order. *)
Definition descending (l : list Q) : Prop := Sorted (fun x y => y <= x) l.

(** ** Reference instances of the parameters *)

(** A descending insertion sort; ties keep their order. *)
Fixpoint insert_desc (r : agg_row) (t : list agg_row) : list agg_row :=
  match t with
  | [] => [r]
  | x :: t' =>
      if Qle_bool (a_sales x) (a_sales r) then r :: t
      else x :: insert_desc r t'
  end.

Definition sort_desc (t : list agg_row) : list agg_row :=
  fold_right insert_desc [] t.

(** Another descending sort: the same, on the reversed table, so ties
    come out in the opposite order. *)
Definition sort_desc_rev (t : list agg_row) : list agg_row :=
  sort_desc (rev t).

(** A square root rounded down to six decimals, exact at 0. *)
Definition Qsqrt (q : Q) : Q :=
  Z.sqrt (Qnum q * Zpos (Qden q) * 10 ^ 12) # (Qden q * 10 ^ 6).

(** A rounding with loss and overflow, to run the rounded computations:
    down to the next multiple of 1/1024, and to an infinity beyond
    1048576 in size. *)
Definition rnd_fix (q : Q) : fnum :=
  if negb (Qle_bool q 1048576) then PInf
  else if negb (Qle_bool (- (1048576)) q) then NInf
  else Fin (inject_Z (Qfloor (q * 1024)) / 1024).

Definition sqrt_fix (q : Q) : fnum := rnd_fix (Qsqrt q).

(** ** Sample inputs *)

Definition jan : timestamp := mkdate 2024 1 15.
Definition feb : timestamp := mkdate 2024 2 10.
Definition mar : timestamp := mkdate 2024 3 5.

Definition sale (i d : string) (s q : Q) (t : option timestamp) : row :=
  mkrow (Some i) (Some d) s q t ∅.

(** Three items selling 700, 200 and 100 in one month, 10 units each. *)
Definition df_pareto : list row :=
  [ sale "P1" "bolt" 700 10 (Some jan);
    sale "P2" "nut" 200 10 (Some jan);
    sale "P3" "washer" 100 10 (Some jan) ].

(** Their sorted sales column. *)
Definition col_pareto : list Q :=
  map a_sales (sort_desc (groupby_sum df_pareto)).

(** A sale and a smaller return. *)
Definition df_return : list row :=
  [ sale "P1" "bolt" 10 1 (Some jan);
    sale "P2" "nut" (-5) 1 (Some jan) ].

(** Nothing sold. *)
Definition df_zero : list row :=
  [ sale "P1" "bolt" 0 3 (Some jan);
    sale "P2" "nut" 0 4 (Some feb) ].

(** The rows of P2 have an empty date cell. *)
Definition df_nodate : list row :=
  [ sale "P1" "bolt" 60 10 (Some jan);
    sale "P1" "bolt" 40 10 (Some feb);
    sale "P2" "nut" 50 5 None ].

(** P1 sells 10 units in each of two months, P2 sells 10 units in the
    second month only. *)
Definition df_late : list row :=
  [ sale "P1" "bolt" 60 10 (Some jan);
    sale "P1" "bolt" 40 10 (Some feb);
    sale "P2" "nut" 50 10 (Some feb) ].

(** The same three items as a loaded file, with a Group column. *)
Definition raw_sale (i d : string) (s q : option Q) (t : date_cell)
    (g : string) : raw_row :=
  mkraw (Some i) (Some d) s q t {[ "Group"%string := g ]}.

Definition file_pareto : frame :=
  mkframe ["item_id"; "description"; "Group"; "sales"; "qty"; "date"]
    [ raw_sale "P1" "bolt" (Some 700) (Some 10) (DateValue jan) "steel";
      raw_sale "P2" "nut" (Some 200) (Some 10) (DateValue jan) "steel";
      raw_sale "P3" "washer" (Some 100) None (DateValue jan) "brass" ].

Definition file_no_qty : frame :=
  mkframe ["item_id"; "description"; "sales"; "date"] (rows file_pareto).

Definition file_bad_date : frame :=
  mkframe (columns file_pareto)
    (rows file_pareto
     ++ [raw_sale "P4" "rivet" (Some 1) (Some 1) DateUnparsable "steel"]).

(** Two items selling the same amount. *)
Definition df_tie : list row :=
  [ sale "P1" "bolt" 50 1 (Some jan);
    sale "P2" "nut" 50 1 (Some jan) ].

(** ** Vocabulary of the properties *)

(** One cleaned row, when its date cell is not a bad date. *)
Definition cleaned_row (r : raw_row) : row :=
  mkrow (raw_item_id r) (raw_description r)
        (to_numeric_fillna0 (raw_sales r)) (to_numeric_fillna0 (raw_qty r))
        (match raw_date r with DateValue d => Some d | _ => None end)
        (raw_extra r).

(** The group of a row in the table of totals, when it has one. *)
Definition key_of (r : row) : option (string * string) :=
  match item_id r, description r with
  | Some i, Some d => Some (i, d)
  | _, _ => None
  end.

Definition agg_key (a : agg_row) : string * string :=
  (a_item_id a, a_description a).

Definition key_lt (k1 k2 : string * string) : Prop :=
  key_compare k1.1 k1.2 k2.1 k2.2 = Lt.

Definition rows_of_key (k : string * string) (df : list row) : list row :=
  filter (fun r => key_of r = Some k) df.

(** The group of a row in the monthly table, when it has one. *)
Definition month_key (r : row) : option (string * (Z * Z)) :=
  match item_id r, date r with
  | Some i, Some d => Some (i, month_end d)
  | _, _ => None
  end.

Definition rows_of_month (k : string * (Z * Z)) (df : list row) : list row :=
  filter (fun r => month_key r = Some k) df.

(** A before B before C. *)
Definition abc_rank (label : string) : nat :=
  if String.eqb label "A" then 0 else if String.eqb label "B" then 1 else 2.

(** The three sample items after cleaning, with their Group column. *)
Definition df_groups : list row := map cleaned_row (rows file_pareto).

(** * Properties *)

(** ** Comparisons of cells *)

Lemma fleb_fle x y : fleb x y = true <-> fle x y.
Proof.
  destruct x, y; simpl; try tauto; try (split; [discriminate | tauto]).
  apply Qle_bool_iff.
Qed.

Lemma fleb_nfle x y : fleb x y = false <-> ~ fle x y.
Proof.
  rewrite <- fleb_fle. destruct (fleb x y); split; intros; congruence.
Qed.

Lemma flt_nfle x y : flt x y -> ~ fle y x.
Proof.
  destruct x, y; simpl; try tauto. intros. lra.
Qed.

Lemma fle_feq_l x y z : feq x y -> fle y z -> fle x z.
Proof.
  destruct x, y, z; simpl; try tauto. intros -> ?. assumption.
Qed.

Lemma fle_trans x y z : fle x y -> fle y z -> fle x z.
Proof.
  destruct x, y, z; simpl; try tauto. intros. lra.
Qed.

Lemma Qeq_bool_false_iff a b : Qeq_bool a b = false <-> ~ a == b.
Proof.
  rewrite <- Qeq_bool_iff. destruct (Qeq_bool a b); split; intros; congruence.
Qed.

(** ** The threshold lambdas *)

Lemma abc_label_bands x :
  (fle x (Fin (7 # 10)) -> abc_label x = "A") /\
  (flt (Fin (7 # 10)) x /\ fle x (Fin (9 # 10)) -> abc_label x = "B") /\
  (~ fle x (Fin (9 # 10)) -> abc_label x = "C").
Proof.
  unfold abc_label. repeat split.
  - intros H%fleb_fle. now rewrite H.
  - intros [H1%flt_nfle%fleb_nfle H2%fleb_fle]. now rewrite H1, H2.
  - intros H. assert (H' : ~ fle x (Fin (7 # 10))).
    { intros H7. apply H. eapply fle_trans; [exact H7 | simpl; lra]. }
    apply fleb_nfle in H, H'. now rewrite H, H'.
Qed.

Lemma xyz_label_bands c :
  (fle c (Fin (1 # 2)) -> xyz_label c = "X") /\
  (flt (Fin (1 # 2)) c /\ fle c (Fin 1) -> xyz_label c = "Y") /\
  (~ fle c (Fin 1) -> xyz_label c = "Z").
Proof.
  unfold xyz_label. repeat split.
  - intros H%fleb_fle. now rewrite H.
  - intros [H1%flt_nfle%fleb_nfle H2%fleb_fle]. now rewrite H1, H2.
  - intros H. assert (H' : ~ fle c (Fin (1 # 2))).
    { intros H7. apply H. eapply fle_trans; [exact H7 | simpl; lra]. }
    apply fleb_nfle in H, H'. now rewrite H, H'.
Qed.

Lemma abc_label_cases x :
  abc_label x = "A" \/ abc_label x = "B" \/ abc_label x = "C".
Proof.
  unfold abc_label. destruct (fleb x _); [tauto |]. destruct (fleb x _); tauto.
Qed.

Lemma xyz_label_cases c :
  xyz_label c = "X" \/ xyz_label c = "Y" \/ xyz_label c = "Z".
Proof.
  unfold xyz_label. destruct (fleb c _); [tauto |]. destruct (fleb c _); tauto.
Qed.

(** ** The threshold lambdas on binary64 *)

Lemma SFcompare_antisym x y :
  SFcompare y x = option_map CompOpp (SFcompare x y).
Proof.
  destruct x as [s1 | s1 | | s1 m1 e1], y as [s2 | s2 | | s2 m2 e2];
    cbn [SFcompare option_map]; try reflexivity;
    try (destruct s1; reflexivity); try (destruct s2; reflexivity);
    try (destruct s1, s2; reflexivity).
  f_equal. rewrite (Z.compare_antisym e1 e2).
  change (Pos.compare_cont Eq m2 m1) with (Pos.compare m2 m1).
  change (Pos.compare_cont Eq m1 m2) with (Pos.compare m1 m2).
  rewrite (Pos.compare_antisym m1 m2).
  destruct s1, s2; simpl; try reflexivity;
    destruct (e1 ?= e2)%Z; simpl; reflexivity.
Qed.

Lemma ltb_not_leb x y : (x <? y)%float = true -> (y <=? x)%float = false.
Proof.
  rewrite ltb_spec, leb_spec. unfold SFltb, SFleb.
  rewrite (SFcompare_antisym (Prim2SF x) (Prim2SF y)).
  destruct (SFcompare (Prim2SF x) (Prim2SF y)) as [[] |]; simpl; congruence.
Qed.

(** Below a positive finite bound, below every larger one. *)
Lemma SFleb_finite_mono s m1 e1 m2 e2 :
  (e1 < e2)%Z \/ (e1 = e2 /\ (m1 <= m2)%positive) ->
  SFleb s (S754_finite false m1 e1) = true ->
  SFleb s (S754_finite false m2 e2) = true.
Proof.
  intros Hle. unfold SFleb.
  destruct s as [b | b | | b m e]; cbn [SFcompare]; try congruence.
  destruct b; [reflexivity |].
  change (Pos.compare_cont Eq m m1) with (Pos.compare m m1).
  change (Pos.compare_cont Eq m m2) with (Pos.compare m m2).
  destruct (Z.compare_spec e e1), (Z.compare_spec e e2);
    try reflexivity; try congruence; try lia.
  destruct (Pos.compare_spec m m1), (Pos.compare_spec m m2);
    try reflexivity; try congruence; lia.
Qed.

#[local] Set Warnings "-inexact-float".

Lemma leb_07_09 x : (x <=? 0.7)%float = true -> (x <=? 0.9)%float = true.
Proof.
  rewrite !leb_spec.
  change (Prim2SF 0.7) with (S754_finite false 6305039478318694 (-53)).
  change (Prim2SF 0.9) with (S754_finite false 8106479329266893 (-53)).
  apply SFleb_finite_mono. right. split; [reflexivity | discriminate].
Qed.

Lemma leb_05_1 x : (x <=? 0.5)%float = true -> (x <=? 1.0)%float = true.
Proof.
  rewrite !leb_spec.
  change (Prim2SF 0.5) with (S754_finite false 4503599627370496 (-53)).
  change (Prim2SF 1.0) with (S754_finite false 4503599627370496 (-52)).
  apply SFleb_finite_mono. left. reflexivity.
Qed.

Lemma binary64_abc_label_bands x :
  ((x <=? 0.7)%float = true -> Binary64.abc_label x = "A") /\
  ((0.7 <? x)%float = true /\ (x <=? 0.9)%float = true ->
   Binary64.abc_label x = "B") /\
  ((x <=? 0.9)%float = false -> Binary64.abc_label x = "C").
Proof.
  unfold Binary64.abc_label. repeat split.
  - now intros ->.
  - intros [H1%ltb_not_leb H2]. now rewrite H1, H2.
  - intros H. destruct (x <=? 0.7)%float eqn:E; [| now rewrite H].
    apply leb_07_09 in E. congruence.
Qed.

Lemma binary64_xyz_label_bands c :
  ((c <=? 0.5)%float = true -> Binary64.xyz_label c = "X") /\
  ((0.5 <? c)%float = true /\ (c <=? 1.0)%float = true ->
   Binary64.xyz_label c = "Y") /\
  ((c <=? 1.0)%float = false -> Binary64.xyz_label c = "Z").
Proof.
  unfold Binary64.xyz_label. repeat split.
  - now intros ->.
  - intros [H1%ltb_not_leb H2]. now rewrite H1, H2.
  - intros H. destruct (c <=? 0.5)%float eqn:E; [| now rewrite H].
    apply leb_05_1 in E. congruence.
Qed.

(** ** Shape of the classified tables *)

Lemma length_cumsum_from acc l : length (cumsum_from acc l) = length l.
Proof. revert acc. induction l; intros; simpl; auto. Qed.

Lemma length_cumsum l : length (cumsum l) = length l.
Proof. destruct l; simpl; auto using length_cumsum_from. Qed.

Lemma length_cum_pct_col col : length (cum_pct_col col) = length col.
Proof. unfold cum_pct_col. now rewrite length_map, length_cumsum. Qed.

Lemma abc_classification_rows sort_values df r :
  r ∈ abc_classification sort_values df ->
  ABC r = abc_label (cum_pct r) /\ agg r ∈ sort_values (groupby_sum df).
Proof.
  unfold abc_classification. intros (a & x & -> & Ha & _)%elem_of_zip_with.
  simpl. auto.
Qed.

Lemma abc_classification_cum_pct sort_values df :
  map cum_pct (abc_classification sort_values df)
  = cum_pct_col (map a_sales (sort_values (groupby_sum df))).
Proof.
  unfold abc_classification. apply fmap_zip_with_r; [reflexivity |].
  now rewrite length_cum_pct_col, length_map.
Qed.

Lemma abc_classification_agg sort_values df :
  map agg (abc_classification sort_values df) = sort_values (groupby_sum df).
Proof.
  unfold abc_classification. apply fmap_zip_with_l; [reflexivity |].
  now rewrite length_cum_pct_col, length_map.
Qed.

Lemma classify_rows sort_values sqrt df r :
  r ∈ classify sort_values sqrt df ->
  abc r ∈ abc_classification sort_values df /\
  CV r = join_cv (cv sqrt df) (abc r) /\
  XYZ r = xyz_label (CV r) /\
  ABC_XYZ r = (ABC (abc r) ++ "/" ++ XYZ r)%string.
Proof.
  unfold classify. intros (a & -> & Ha)%list_elem_of_fmap. simpl. auto.
Qed.

Lemma classify_segment_valid sort_values sqrt df r :
  r ∈ classify sort_values sqrt df -> ABC_XYZ r ∈ nine_segments.
Proof.
  intros (Ha & _ & Hx & ->)%classify_rows.
  apply abc_classification_rows in Ha as [-> _]. rewrite Hx.
  unfold nine_segments.
  destruct (abc_label_cases (cum_pct (abc r))) as [-> | [-> | ->]];
    destruct (xyz_label_cases (CV r)) as [-> | [-> | ->]];
    simpl; set_solver.
Qed.

(** ** C1 *)

(** C1.  The ABC column of the classified table is the threshold function
    applied to the cumulative share of the same row, and that function
    is total with closed upper bounds: A up to 0.70 included, B above
    0.70 up to 0.90 included, C in every other case (NaN included);
    a share of exactly 0.70 gets A and one of exactly 0.90 gets B.  The
    bands are the same for the lambda on binary64 floats. *)
Theorem abc_label_closed_upper_bounds :
  forall (sort_values : list agg_row -> list agg_row) (df : list row),
    (forall r, r ∈ abc_classification sort_values df ->
               ABC r = abc_label (cum_pct r)) /\
    (forall x,
       (fle x (Fin (7 # 10)) -> abc_label x = "A") /\
       (flt (Fin (7 # 10)) x /\ fle x (Fin (9 # 10)) -> abc_label x = "B") /\
       (~ fle x (Fin (9 # 10)) -> abc_label x = "C")) /\
    (forall x, feq x (Fin (7 # 10)) -> abc_label x = "A") /\
    (forall x, feq x (Fin (9 # 10)) -> abc_label x = "B") /\
    (forall y : float,
       ((y <=? 0.7)%float = true -> Binary64.abc_label y = "A") /\
       ((0.7 <? y)%float = true /\ (y <=? 0.9)%float = true ->
        Binary64.abc_label y = "B") /\
       ((y <=? 0.9)%float = false -> Binary64.abc_label y = "C")).
Proof.
  intros sort_values df. split; [| split; [| split; [| split]]].
  - intros r Hr. now apply abc_classification_rows in Hr.
  - apply abc_label_bands.
  - intros x Hx. apply abc_label_bands.
    eapply fle_feq_l; [exact Hx | simpl; lra].
  - intros x Hx. apply abc_label_bands. split.
    + destruct x; simpl in *; try tauto. lra.
    + eapply fle_feq_l; [exact Hx | simpl; lra].
  - apply binary64_abc_label_bands.
Qed.

(** The scenario of the specification: sales 700, 200, 100. *)
Example pareto_scenario :
  map (fun r => (cum_pct (abc r), ABC_XYZ r, policy_resolver (ABC_XYZ r)))
      (classify sort_desc Qsqrt df_pareto)
  = [ (Fin (700 # 1000), "A/X",
       Some "Reorder weekly with tight safety stock control.");
      (Fin (900 # 1000), "B/X",
       Some "Reorder bi-weekly with fixed reorder point.");
      (Fin (1000 # 1000), "C/X",
       Some "Low-priority reorder, maintain minimum stock.") ]%string.
Proof. vm_compute. reflexivity. Qed.

(** ** C4, C7: the replenishment table *)

Lemma with_advice_rows t o :
  o ∈ with_advice t ->
  cls o ∈ t /\ Replenishment_Advice o = policy_resolver (ABC_XYZ (cls o)).
Proof.
  unfold with_advice. intros (r & -> & Hr)%list_elem_of_fmap. simpl. auto.
Qed.

(** C4.  The advice column is the lookup of the row's segment, and the
    lookup returns, for each of the nine segments, the string of the
    table of section 6 of the specification. *)
Theorem policy_resolver_table :
  (forall t o, o ∈ with_advice t ->
     Replenishment_Advice o = policy_resolver (ABC_XYZ (cls o))) /\
  policy_resolver "A/X"
    = Some "Reorder weekly with tight safety stock control."%string /\
  policy_resolver "A/Y"
    = Some "Reorder bi-weekly using smoothed demand forecast."%string /\
  policy_resolver "A/Z"
    = Some "Manual review monthly with cautious reorder quantity."%string /\
  policy_resolver "B/X"
    = Some "Reorder bi-weekly with fixed reorder point."%string /\
  policy_resolver "B/Y"
    = Some "Monitor monthly; reorder with buffer stock."%string /\
  policy_resolver "B/Z"
    = Some "Review quarterly with manual override."%string /\
  policy_resolver "C/X"
    = Some "Low-priority reorder, maintain minimum stock."%string /\
  policy_resolver "C/Y"
    = Some "Replenish only with demand signal."%string /\
  policy_resolver "C/Z"
    = Some "Do not replenish unless justified by exception."%string.
Proof.
  split; [intros t o Ho; now apply with_advice_rows in Ho |].
  repeat split; vm_compute; reflexivity.
Qed.

Lemma policy_resolver_unknown segment :
  segment ∉ nine_segments -> policy_resolver segment = None.
Proof.
  intros H. unfold policy_resolver, replenishment_rules.
  apply not_elem_of_list_to_map. exact H.
Qed.

Lemma policy_resolver_known segment :
  segment ∈ nine_segments -> is_Some (policy_resolver segment).
Proof.
  unfold nine_segments. rewrite !elem_of_cons, elem_of_nil.
  intros H. decompose [or] H; subst; try contradiction;
    vm_compute; eexists; reflexivity.
Qed.

(** C7, as the code has it.  A segment that is not one of the nine is
    mapped to a missing advice value; the lookup raises nothing.  On the
    nine segments the lookup returns a string, and the classification
    only produces those nine. *)
Theorem policy_resolver_missing_not_error :
  forall segment : string,
    (segment ∉ nine_segments -> policy_resolver segment = None) /\
    (segment ∈ nine_segments -> is_Some (policy_resolver segment)) /\
    (forall sort_values sqrt df o,
       o ∈ with_advice (classify sort_values sqrt df) ->
       is_Some (Replenishment_Advice o)).
Proof.
  intros segment. repeat split.
  - apply policy_resolver_unknown.
  - apply policy_resolver_known.
  - intros sort_values sqrt df o [Hc ->]%with_advice_rows.
    eapply policy_resolver_known, classify_segment_valid, Hc.
Qed.

(** C7 as stated fails: the segment "D/X" is none of the nine, and the
    run goes on with a missing advice value for it. *)
Lemma policy_resolver_unknown_segment_no_error :
  ("D/X"%string ∉ nine_segments) /\
  policy_resolver "D/X" = None /\
  with_advice [mkcls (mkabc (mkagg "P9" "rivet" 1 1) NaN "D") (Fin 0) "X" "D/X"]
  = [mkout (mkcls (mkabc (mkagg "P9" "rivet" 1 1) NaN "D") (Fin 0) "X" "D/X")
           None].
Proof.
  split; [apply (bool_decide_unpack _); vm_compute; exact I |].
  split; vm_compute; reflexivity.
Qed.

(** ** C9: the segment filter *)

Lemma segment_filter_all t :
  Forall (fun r => ABC_XYZ r ∈ nine_segments) t ->
  segment_filter nine_segments t = t.
Proof.
  unfold segment_filter. induction 1 as [| r t Hr _ IH]; [reflexivity |].
  rewrite filter_cons. destruct (decide _); [now rewrite IH | contradiction].
Qed.

(** C9.  The segment filter keeps or drops rows and changes none: its
    result is a sublist of the table, made of exactly the rows whose
    segment is selected.  With the nine segments selected it returns the
    classified table unchanged, with none selected it returns no row. *)
Theorem segment_filter_subset :
  forall (sort_values : list agg_row -> list agg_row) (sqrt : Q -> Q)
         (df : list row) (selected : list string) (t : list cls_row),
    segment_filter nine_segments (classify sort_values sqrt df)
    = classify sort_values sqrt df /\
    segment_filter [] t = [] /\
    sublist (segment_filter selected t) t /\
    (forall r, r ∈ segment_filter selected t <->
               ABC_XYZ r ∈ selected /\ r ∈ t).
Proof.
  intros sort_values sqrt df selected t.
  split; [| split; [| split]].
  - apply segment_filter_all, Forall_forall.
    intros r Hr. eapply classify_segment_valid, Hr.
  - unfold segment_filter. induction t as [| r t IH]; [reflexivity |].
    rewrite filter_cons. destruct (decide _) as [H | _]; [| exact IH].
    now apply elem_of_nil in H.
  - apply sublist_filter.
  - intros r. unfold segment_filter.
    apply (list_elem_of_filter (fun r => ABC_XYZ r ∈ selected)).
Qed.

(** ** C10: the category column *)

Lemma required_description cols :
  has_required cols = true -> "description"%string ∈ cols.
Proof.
  unfold has_required. intros H%bool_decide_eq_true.
  apply (elem_of_list_to_set (C:=gset string)). apply H.
  unfold required_cols. set_solver.
Qed.

(** C10.  When the required columns are present, the category column is
    always resolved: it is a column of the table, it is the first name
    of the list category, Category, group, Group, description that is
    one, and it is a non-empty name, so the category filter is offered. *)
Theorem resolve_category_total :
  forall cols : list string,
    has_required cols = true ->
    exists col,
      resolve_category cols = Some col /\
      col ∈ cols /\ col <> ""%string /\
      exists skipped rest,
        ["category"; "Category"; "group"; "Group"; "description"]%string
        = skipped ++ col :: rest /\
        Forall (fun c => c ∉ cols) skipped.
Proof.
  intros cols Hd%required_description.
  unfold resolve_category, category_candidates. simpl.
  repeat match goal with
  | |- context [bool_decide (?c ∈ cols)] =>
      let H := fresh "H" in
      destruct (bool_decide_reflect (c ∈ cols)) as [H | H];
      [ exists c; split; [reflexivity |]; split; [exact H |];
        split; [discriminate |] | ]
  end; try contradiction.
  - exists [], ["Category"; "group"; "Group"; "description"]%string. auto.
  - exists ["category"]%string, ["group"; "Group"; "description"]%string.
    split; [reflexivity |]. repeat constructor; assumption.
  - exists ["category"; "Category"]%string, ["Group"; "description"]%string.
    split; [reflexivity |]. repeat constructor; assumption.
  - exists ["category"; "Category"; "group"]%string, ["description"]%string.
    split; [reflexivity |]. repeat constructor; assumption.
  - exists ["category"; "Category"; "group"; "Group"]%string, [].
    split; [reflexivity |]. repeat constructor; assumption.
Qed.

Lemma resolve_category_total_witness :
  has_required ["item_id"; "description"; "Group"; "sales"; "qty"; "date"]
  = true /\
  exists col,
    resolve_category ["item_id"; "description"; "Group"; "sales"; "qty"; "date"]
    = Some col /\
    col ∈ ["item_id"; "description"; "Group"; "sales"; "qty"; "date"]%string /\
    col <> ""%string /\
    exists skipped rest,
      ["category"; "Category"; "group"; "Group"; "description"]%string
      = skipped ++ col :: rest /\
      Forall (fun c => c ∉ ["item_id"; "description"; "Group"; "sales"; "qty";
                            "date"]%string) skipped.
Proof.
  split; [vm_compute; reflexivity |].
  apply (resolve_category_total
           ["item_id"; "description"; "Group"; "sales"; "qty"; "date"]%string).
  vm_compute; reflexivity.
Defined.

Example resolve_category_first_match :
  resolve_category ["item_id"; "description"; "Group"; "category"] = Some "category"%string /\
  resolve_category ["item_id"; "description"; "Group"] = Some "Group"%string /\
  resolve_category ["item_id"; "description"] = Some "description"%string /\
  resolve_category ["item_id"] = None.
Proof. repeat split; vm_compute; reflexivity. Qed.

(** ** Sums and running sums *)

Lemma fold_left_Qplus l acc : fold_left Qplus l acc == acc + sum l.
Proof.
  unfold sum. revert acc. induction l as [| x l IH]; intros acc; simpl.
  - ring.
  - rewrite (IH (acc + x)), (IH (0 + x)). ring.
Qed.

Lemma sum_cons x l : sum (x :: l) == x + sum l.
Proof. unfold sum at 1. simpl. rewrite fold_left_Qplus. ring. Qed.

Lemma sum_Permutation l l' : Permutation l l' -> sum l == sum l'.
Proof.
  induction 1 as [| x l l' _ IH | x y l | l l' l'' _ IH1 _ IH2].
  - reflexivity.
  - now rewrite !sum_cons, IH.
  - rewrite !sum_cons. ring.
  - now rewrite IH1.
Qed.

Lemma sum_zero l : Forall (fun x => x == 0) l -> sum l == 0.
Proof.
  induction 1 as [| x l Hx _ IH]; [reflexivity |].
  rewrite sum_cons, Hx, IH. ring.
Qed.

(** Each running sum of a list of non-negative numbers is at least the
    one before. *)
Lemma cumsum_from_Sorted l acc :
  Forall (fun x => 0 <= x) l ->
  Sorted Qle (cumsum_from acc l) /\ HdRel Qle acc (cumsum_from acc l).
Proof.
  intros H. revert acc. induction H as [| x l Hx _ IH]; intros acc; simpl.
  - split; constructor.
  - destruct (IH (acc + x)) as [IH1 IH2]. split.
    + now constructor.
    + constructor. lra.
Qed.

Lemma cumsum_Sorted l :
  Forall (fun x => 0 <= x) l -> Sorted Qle (cumsum l).
Proof.
  destruct 1 as [| x l Hx Hl]; simpl; [constructor |].
  destruct (cumsum_from_Sorted l x Hl). now constructor.
Qed.

Lemma last_cumsum_from l acc :
  l <> [] -> exists s, last (cumsum_from acc l) = Some s /\ s == acc + sum l.
Proof.
  revert acc. induction l as [| x l IH]; intros acc Hne; [contradiction |].
  destruct l as [| y l].
  - exists (acc + x). split; [reflexivity |]. rewrite sum_cons.
    unfold sum; simpl. ring.
  - destruct (IH (acc + x)) as (s & Hs & Es); [discriminate |].
    exists s. split.
    + simpl in *. exact Hs.
    + rewrite Es, (sum_cons x). ring.
Qed.

Lemma last_cumsum l :
  l <> [] -> exists s, last (cumsum l) = Some s /\ s == sum l.
Proof.
  destruct l as [| x l]; intros Hne; [contradiction |].
  destruct l as [| y l].
  - exists x. split; [reflexivity |]. rewrite sum_cons. unfold sum; simpl. ring.
  - destruct (last_cumsum_from (y :: l) x) as (s & Hs & Es); [discriminate |].
    exists s. split.
    + simpl in *. exact Hs.
    + rewrite Es, (sum_cons x). ring.
Qed.

Lemma fdiv_pos c t : 0 < t -> fdiv (Fin c) (Fin t) = Fin (c / t).
Proof.
  intros Ht. simpl.
  assert (H : Qeq_bool t 0 = false) by (apply Qeq_bool_false_iff; lra).
  now rewrite H.
Qed.

Lemma Qdiv_le_pos a b t : 0 < t -> a <= b -> a / t <= b / t.
Proof.
  intros Ht Hab. unfold Qdiv. apply Qmult_le_compat_r; [exact Hab |].
  apply Qlt_le_weak, Qinv_lt_0_compat, Ht.
Qed.

Lemma cum_pct_Sorted t l :
  0 < t -> Sorted Qle l ->
  Sorted fle (map (fun c => fdiv (Fin c) (Fin t)) l).
Proof.
  intros Ht. induction 1 as [| x l _ IH Hx]; cbn [map]; constructor;
    [exact IH |].
  destruct Hx as [| y l Hxy]; cbn [map]; constructor.
  rewrite !fdiv_pos by exact Ht. simpl. now apply Qdiv_le_pos.
Qed.

Lemma sum_nonpos l : Forall (fun x => x <= 0) l -> sum l <= 0.
Proof.
  induction 1 as [| x l Hx _ IH]; [unfold sum; simpl; lra |].
  rewrite sum_cons. lra.
Qed.

(** Below a point where only non-positive numbers remain, no running sum
    is under the final one. *)
Lemma cumsum_from_above_total l acc :
  Forall (fun x => x <= 0) l ->
  Forall (fun c => acc + sum l <= c) (cumsum_from acc l).
Proof.
  intros H. revert acc. induction H as [| x l Hx Hl IH]; intros acc; simpl.
  - constructor.
  - constructor.
    + rewrite sum_cons. pose proof (sum_nonpos l Hl). lra.
    + eapply List.Forall_impl; [| apply (IH (acc + x))].
      intros c Hc. simpl in Hc. rewrite sum_cons. lra.
Qed.

Lemma descending_below_head x l :
  descending (x :: l) -> Forall (fun y => y <= x) l.
Proof.
  intros H. apply Sorted_StronglySorted in H.
  - now inversion H.
  - intros a b c Hab Hbc. lra.
Qed.

(** In descending order, the running sums of a list whose total is not
    negative are not negative either. *)
Lemma cumsum_from_nonneg l acc :
  descending l -> 0 <= acc -> 0 <= acc + sum l ->
  Forall (fun c => 0 <= c) (cumsum_from acc l).
Proof.
  revert acc. induction l as [| x l IH]; intros acc Hd Hacc Htot; simpl.
  - constructor.
  - destruct (Qlt_le_dec x 0) as [Hneg | Hpos].
    + assert (Hall : Forall (fun y => y <= 0) (x :: l)).
      { constructor; [lra |]. eapply List.Forall_impl;
          [| apply (descending_below_head x l Hd)].
        intros y Hy. simpl in Hy. lra. }
      eapply List.Forall_impl; [| apply (cumsum_from_above_total (x :: l) acc Hall)].
      intros c Hc. simpl in Hc. lra.
    + rewrite sum_cons in Htot. constructor; [lra |].
      apply IH; [now inversion Hd | lra | lra].
Qed.

Lemma cumsum_nonneg l :
  descending l -> 0 <= sum l -> Forall (fun c => 0 <= c) (cumsum l).
Proof.
  destruct l as [| x l]; intros Hd Htot; simpl; [constructor |].
  rewrite sum_cons in Htot.
  destruct (Qlt_le_dec x 0) as [Hneg | Hpos].
  - exfalso.
    assert (Hl : Forall (fun y => y <= 0) l).
    { eapply List.Forall_impl; [| apply (descending_below_head x l Hd)].
      intros y Hy. simpl in Hy. lra. }
    pose proof (sum_nonpos l Hl). lra.
  - constructor; [exact Hpos |].
    apply cumsum_from_nonneg; [now inversion Hd | exact Hpos | exact Htot].
Qed.

Lemma cumsum_from_zero l acc :
  acc == 0 -> Forall (fun x => x == 0) l ->
  Forall (fun c => c == 0) (cumsum_from acc l).
Proof.
  intros Hacc H. revert acc Hacc.
  induction H as [| x l Hx _ IH]; intros acc Hacc; simpl; constructor.
  - rewrite Hacc, Hx. ring.
  - apply IH. rewrite Hacc, Hx. ring.
Qed.

Lemma cumsum_zero l :
  Forall (fun x => x == 0) l -> Forall (fun c => c == 0) (cumsum l).
Proof.
  destruct 1 as [| x l Hx Hl]; simpl; constructor; [exact Hx |].
  now apply cumsum_from_zero.
Qed.

Lemma fdiv_zero_total c t :
  t == 0 -> 0 <= c ->
  (fdiv (Fin c) (Fin t) = NaN \/ fdiv (Fin c) (Fin t) = PInf) /\
  (c == 0 -> fdiv (Fin c) (Fin t) = NaN).
Proof.
  intros Ht%Qeq_bool_iff Hc. simpl. rewrite Ht.
  destruct (Qeq_bool c 0) eqn:E.
  - auto.
  - apply Qle_bool_iff in Hc. rewrite Hc. split; [auto |].
    intros E'%Qeq_bool_iff. congruence.
Qed.

Lemma abc_label_nan_or_inf x : x = NaN \/ x = PInf -> abc_label x = "C".
Proof. intros [-> | ->]; reflexivity. Qed.

(** ** Properties that depend on the sort *)

Section Sorted_table.

Variable sort_values : list agg_row -> list agg_row.

Hypothesis sort_values_Permutation :
  forall t, Permutation (sort_values t) t.

Hypothesis sort_values_descending :
  forall t, descending (map a_sales (sort_values t)).

Lemma length_abc_classification df :
  length (abc_classification sort_values df) = length (groupby_sum df).
Proof.
  rewrite <- (length_map agg), abc_classification_agg.
  apply Permutation_length, sort_values_Permutation.
Qed.

Lemma sorted_sum df :
  sum (map a_sales (sort_values (groupby_sum df)))
  == sum (map a_sales (groupby_sum df)).
Proof. apply sum_Permutation, Permutation_map, sort_values_Permutation. Qed.


End Sorted_table.

(** ** The reference sorts meet the requirements *)

Lemma insert_desc_Permutation r t : Permutation (insert_desc r t) (r :: t).
Proof.
  induction t as [| x t IH]; simpl; [reflexivity |].
  destruct (Qle_bool (a_sales x) (a_sales r)); [reflexivity |].
  rewrite IH. apply perm_swap.
Qed.

Lemma sort_desc_Permutation t : Permutation (sort_desc t) t.
Proof.
  induction t as [| r t IH]; simpl; [reflexivity |].
  now rewrite insert_desc_Permutation, IH.
Qed.

Lemma insert_desc_descending r t :
  descending (map a_sales t) -> descending (map a_sales (insert_desc r t)).
Proof.
  unfold descending. induction t as [| x t IH]; intros Ht; simpl.
  - repeat constructor.
  - destruct (Qle_bool (a_sales x) (a_sales r)) eqn:E.
    + apply Qle_bool_iff in E.
      constructor; [exact Ht | constructor; exact E].
    + assert (Hlt : a_sales r < a_sales x).
      { apply Qnot_le_lt. intros H%Qle_bool_iff. congruence. }
      inversion Ht as [| ? ? Hs Hh]; subst. constructor; [now apply IH |].
      destruct t as [| y t]; simpl.
      * constructor. lra.
      * destruct (Qle_bool (a_sales y) (a_sales r)); constructor;
          [lra | now inversion Hh].
Qed.

Lemma sort_desc_descending t : descending (map a_sales (sort_desc t)).
Proof.
  induction t as [| r t IH]; simpl; [constructor |].
  now apply insert_desc_descending.
Qed.

Lemma sort_desc_rev_Permutation t : Permutation (sort_desc_rev t) t.
Proof.
  unfold sort_desc_rev. rewrite sort_desc_Permutation.
  symmetry. apply Permutation_rev.
Qed.

Lemma sort_desc_rev_descending t : descending (map a_sales (sort_desc_rev t)).
Proof. apply sort_desc_descending. Qed.

(** Both sorts meet the requirements, and they order two items of equal
    sales differently: the requirements leave the order of ties open. *)
Lemma ties_left_open :
  map a_item_id (sort_desc (groupby_sum df_tie)) = ["P1"; "P2"]%string /\
  map a_item_id (sort_desc_rev (groupby_sum df_tie)) = ["P2"; "P1"]%string.
Proof. split; vm_compute; reflexivity. Qed.

(** A return breaks the order of the shares, in exact arithmetic
    already: with a sale of 10 and a return of 5 the grand total is
    positive and the shares are 2 and then 1. *)
Lemma cum_pct_decreases_after_negative_total :
  df_return <> [] /\
  0 < sum (map a_sales (groupby_sum df_return)) /\
  map cum_pct (abc_classification sort_desc df_return)
  = [Fin (10 # 5); Fin (5 # 5)] /\
  ~ Sorted fle (map cum_pct (abc_classification sort_desc df_return)).
Proof.
  split; [discriminate |]. split; [vm_compute; reflexivity |].
  assert (E : map cum_pct (abc_classification sort_desc df_return)
              = [Fin (10 # 5); Fin (5 # 5)]) by (vm_compute; reflexivity).
  split; [exact E |]. rewrite E. intros H.
  inversion H as [| ? ? _ Hh]; subst. inversion Hh as [| ? ? Hle]; subst.
  simpl in Hle. revert Hle. vm_compute. intros Hle. now apply Hle.
Qed.

(** The same shares come out of every sort that meets the requirements. *)
Lemma cum_pct_of_df_return (sort_values : list agg_row -> list agg_row) :
  (forall t, Permutation (sort_values t) t) ->
  (forall t, descending (map a_sales (sort_values t))) ->
  map cum_pct (abc_classification sort_values df_return)
  = [Fin (10 # 5); Fin (5 # 5)].
Proof.
  intros Hp Hd. rewrite abc_classification_cum_pct.
  specialize (Hp (groupby_sum df_return)). specialize (Hd (groupby_sum df_return)).
  change (groupby_sum df_return)
    with [mkagg "P1" "bolt" 10 1; mkagg "P2" "nut" (-5) 1] in *.
  symmetry in Hp. apply Permutation_length_2_inv in Hp as [-> | E].
  - vm_compute. reflexivity.
  - exfalso. rewrite E in Hd. simpl in Hd.
    inversion Hd as [| ? ? _ Hh]; subst. inversion Hh as [| ? ? Hle]; subst.
    revert Hle. vm_compute. intros Hle. now apply Hle.
Qed.


(** Zero totals that cancel out: a sale and a return of the same amount. *)
Example zero_total_by_cancellation :
  map (fun r => (cum_pct r, ABC r))
      (abc_classification sort_desc
         [sale "P1" "bolt" 5 1 (Some jan); sale "P2" "nut" (-5) 1 (Some jan)])
  = [(PInf, "C"); (NaN, "C")]%string.
Proof. vm_compute. reflexivity. Qed.

(** ** C3: the cumulative shares, with the rounding of float64 *)

Lemma fle_antisym x y : fle x y -> fle y x -> feq x y.
Proof.
  destruct x, y; simpl; try tauto. intros H1 H2. now apply Qle_antisym.
Qed.

Lemma feq_Fin_inv x a : feq x (Fin a) -> exists b, x = Fin b /\ b == a.
Proof. destruct x; simpl; try tauto. intros H. eauto. Qed.

Lemma is_finite_inv x : is_finite x -> exists q, x = Fin q.
Proof. destruct x; simpl; try tauto. eauto. Qed.

Lemma sum_r_exact l a :
  fold_left (fadd_r Fin) (map Fin l) (Fin a) = Fin (fold_left Qplus l a).
Proof.
  revert a. induction l as [| x l IH]; intros a; [reflexivity |].
  cbn [map fold_left fadd_r]. apply IH.
Qed.

Lemma cumsum_from_r_exact l a :
  cumsum_from_r Fin (Fin a) (map Fin l) = map Fin (cumsum_from a l).
Proof.
  revert a. induction l as [| x l IH]; intros a; [reflexivity |].
  cbn [map cumsum_from_r cumsum_from fadd_r]. now rewrite IH.
Qed.

(** Without rounding and with the sum in row order, the rounded shares
    are the shares of the table. *)
Lemma cum_pct_col_r_exact col :
  cum_pct_col_r Fin (sum_r Fin) (map Fin col) = cum_pct_col col.
Proof.
  unfold cum_pct_col_r, cum_pct_col, sum_r, sum. rewrite sum_r_exact.
  destruct col as [| x col]; [reflexivity |].
  cbn [map cumsum_r cumsum]. rewrite cumsum_from_r_exact.
  cbn [map]. f_equal. rewrite map_map. reflexivity.
Qed.

(** Without rounding the last running sum is the total, and the last
    share of a table with a positive total is 1, whatever the signs of
    the items' totals. *)
Lemma cum_pct_col_last_exact col :
  0 < sum col ->
  exists x, last (cum_pct_col col) = Some x /\ feq x (Fin 1).
Proof.
  intros Htot. destruct (last_cumsum col) as (s & Hs & Es).
  { intros E. rewrite E in Htot. unfold sum in Htot. simpl in Htot. lra. }
  exists (fdiv (Fin s) (Fin (sum col))). split.
  - unfold cum_pct_col.
    change (last ((fun c => fdiv (Fin c) (Fin (sum col))) <$> cumsum col)
            = Some (fdiv (Fin s) (Fin (sum col)))).
    now rewrite fmap_last, Hs.
  - rewrite fdiv_pos by exact Htot. simpl. rewrite Es. field. lra.
Qed.

Section Rounded_shares.

Variable rnd : Q -> fnum.
Variable sum_f : list fnum -> fnum.

(** Rounding to the nearest float keeps the order, and leaves a float
    as it is; 1 is a float. *)
Hypothesis rnd_monotone : forall a b, a <= b -> fle (rnd a) (rnd b).
Hypothesis rnd_idempotent : forall a b, rnd a = Fin b -> feq (rnd b) (Fin b).
Hypothesis rnd_one : feq (rnd 1) (Fin 1).

Lemma rnd_Qeq a b : a == b -> feq (rnd a) (rnd b).
Proof.
  intros E. apply fle_antisym; apply rnd_monotone; rewrite E; apply Qle_refl.
Qed.

Lemma fdiv_r_pos c t : 0 < t -> fdiv_r rnd (Fin c) (Fin t) = rnd (c / t).
Proof.
  intros Ht. simpl.
  assert (H : Qeq_bool t 0 = false) by (apply Qeq_bool_false_iff; lra).
  now rewrite H.
Qed.

(** Each running sum of non-negative floats is at least the one before,
    as long as no sum overflows. *)
Lemma cumsum_from_r_Sorted l q :
  feq (rnd q) (Fin q) ->
  Forall (fun x => 0 <= x) l ->
  Forall is_finite (cumsum_from_r rnd (Fin q) (map Fin l)) ->
  Sorted fle (cumsum_from_r rnd (Fin q) (map Fin l)) /\
  HdRel fle (Fin q) (cumsum_from_r rnd (Fin q) (map Fin l)).
Proof.
  intros Hq H. revert q Hq.
  induction H as [| x l Hx _ IH]; intros q Hq Hf; cbn [map cumsum_from_r fadd_r] in *.
  - split; constructor.
  - inversion Hf as [| ? ? Hs Hf']; subst.
    destruct (is_finite_inv _ Hs) as (q' & E). rewrite E in *.
    destruct (IH q' (rnd_idempotent _ _ E) Hf') as [IH1 IH2].
    split; [now constructor |]. constructor.
    assert (Hle : fle (rnd q) (rnd (q + x))) by (apply rnd_monotone; lra).
    rewrite E in Hle. destruct (rnd q); simpl in Hq, Hle; try tauto.
    simpl. rewrite <- Hq. exact Hle.
Qed.

Lemma cumsum_r_Sorted l :
  Forall (fun x => feq (rnd x) (Fin x)) l ->
  Forall (fun x => 0 <= x) l ->
  Forall is_finite (cumsum_r rnd (map Fin l)) ->
  Sorted fle (cumsum_r rnd (map Fin l)).
Proof.
  intros Hr Hp Hf. destruct l as [| x l]; cbn [map cumsum_r] in *;
    [constructor |].
  inversion Hr; inversion Hp; inversion Hf; subst.
  destruct (cumsum_from_r_Sorted l x) as [S1 S2]; try assumption.
  now constructor.
Qed.

Lemma shares_r_Sorted t l :
  0 < t -> Sorted fle l -> Forall is_finite l ->
  Sorted fle (map (fun c => fdiv_r rnd c (Fin t)) l).
Proof.
  intros Ht. induction 1 as [| x l _ IH Hx]; intros Hf; cbn [map];
    constructor.
  - apply IH. now inversion Hf.
  - inversion Hf as [| ? ? Fx Fl]; subst.
    destruct Hx as [| y l Hxy]; cbn [map]; constructor.
    inversion Fl as [| ? ? Fy _]; subst.
    destruct (is_finite_inv _ Fx) as (a & ->).
    destruct (is_finite_inv _ Fy) as (b & ->).
    rewrite !fdiv_r_pos by exact Ht. apply rnd_monotone.
    simpl in Hxy. now apply Qdiv_le_pos.
Qed.


End Rounded_shares.

(** The rounding [rnd_fix] keeps the order and leaves its results as
    they are. *)
Lemma rnd_fix_monotone a b : a <= b -> fle (rnd_fix a) (rnd_fix b).
Proof.
  intros H. unfold rnd_fix.
  destruct (Qle_bool a 1048576) eqn:Ea; cbn [negb].
  - apply Qle_bool_iff in Ea.
    destruct (Qle_bool b 1048576) eqn:Eb; cbn [negb].
    + destruct (Qle_bool (- (1048576)) a) eqn:Fa; cbn [negb].
      * apply Qle_bool_iff in Fa.
        assert (Fb : Qle_bool (- (1048576)) b = true) by (apply Qle_bool_iff; lra).
        rewrite Fb. cbn [negb fle]. apply Qdiv_le_pos; [reflexivity |].
        rewrite <- Zle_Qle. apply Qfloor_resp_le. lra.
      * destruct (Qle_bool (- (1048576)) b); exact I.
    + destruct (Qle_bool (- (1048576)) a); exact I.
  - assert (Eb : Qle_bool b 1048576 = false).
    { destruct (Qle_bool b 1048576) eqn:Eb; [| reflexivity].
      apply Qle_bool_iff in Eb.
      assert (Ea' : Qle_bool a 1048576 = true) by (apply Qle_bool_iff; lra).
      congruence. }
    rewrite Eb. exact I.
Qed.

Lemma rnd_fix_idempotent a b : rnd_fix a = Fin b -> feq (rnd_fix b) (Fin b).
Proof.
  unfold rnd_fix at 1.
  destruct (Qle_bool a 1048576) eqn:Ea; cbn [negb]; [| discriminate].
  destruct (Qle_bool (- (1048576)) a) eqn:Fa; cbn [negb]; [| discriminate].
  apply Qle_bool_iff in Ea, Fa.
  assert (Hz1 : inject_Z (Qfloor (a * 1024)) <= a * 1024) by apply Qfloor_le.
  assert (Hz0 : (Qfloor (inject_Z (-1073741824)) <= Qfloor (a * 1024))%Z).
  { apply Qfloor_resp_le.
    change (inject_Z (-1073741824)) with (-(1048576) * 1024). lra. }
  rewrite Qfloor_Z in Hz0.
  remember (Qfloor (a * 1024)) as z eqn:Ez. clear Ez.
  intros [= <-].
  assert (Hz2 : inject_Z (- 1073741824) <= inject_Z z)
    by (rewrite <- Zle_Qle; exact Hz0).
  change (inject_Z (-1073741824)) with (- (1073741824)) in Hz2.
  unfold rnd_fix.
  assert (E1 : Qle_bool (inject_Z z / 1024) 1048576 = true).
  { apply Qle_bool_iff. apply Qle_shift_div_r; [reflexivity | lra]. }
  assert (E2 : Qle_bool (- (1048576)) (inject_Z z / 1024) = true).
  { apply Qle_bool_iff. apply Qle_shift_div_l; [reflexivity | lra]. }
  rewrite E1, E2. cbn [negb feq].
  assert (E3 : inject_Z z / 1024 * 1024 == inject_Z z) by (field).
  rewrite (Qfloor_comp _ _ E3), Qfloor_Z. reflexivity.
Qed.

Lemma rnd_fix_one : feq (rnd_fix 1) (Fin 1).
Proof. vm_compute. reflexivity. Qed.

Lemma rnd_fix_zero : feq (rnd_fix 0) (Fin 0).
Proof. vm_compute. reflexivity. Qed.



(** The rounded computation overflows in the same way: three items at
    the largest value of [rnd_fix]. *)
Example cum_pct_overflow_rounded :
  cumsum_r rnd_fix (map Fin [1048576; 1048576; 1048576])
  = [Fin 1048576; PInf; PInf] /\
  sum_r rnd_fix (map Fin [1048576; 1048576; 1048576]) = PInf /\
  cum_pct_col_r rnd_fix (sum_r rnd_fix) (map Fin [1048576; 1048576; 1048576])
  = [Fin 0; NaN; NaN].
Proof. repeat split; vm_compute; reflexivity. Qed.

(** ** The pivot and the coefficient of variation *)

Lemma pivot_index_monthly df i :
  i ∈ pivot_index df <-> exists m, is_Some (monthly_qty df !! (i, m)).
Proof.
  unfold pivot_index. rewrite elem_of_map. split.
  - intros ([i' m] & -> & H%elem_of_dom). now exists m.
  - intros (m & H). exists (i, m). split; [reflexivity |].
    now apply elem_of_dom.
Qed.

Lemma pivot_columns_monthly df m :
  m ∈ pivot_columns df <-> exists i, is_Some (monthly_qty df !! (i, m)).
Proof.
  unfold pivot_columns. rewrite merge_sort_Permutation, elem_of_elements.
  rewrite elem_of_map. split.
  - intros ([i m'] & -> & H%elem_of_dom). now exists i.
  - intros (i & H). exists (i, m). split; [reflexivity |].
    now apply elem_of_dom.
Qed.

Lemma pivot_lookup_in df i :
  i ∈ pivot_index df -> pivot df !! i = Some (pivot_row df i).
Proof.
  intros Hi. unfold pivot. apply lookup_set_to_map.
  - intros y y' _ _ H. exact H.
  - exists i. auto.
Qed.

Lemma pivot_lookup_out df i :
  i ∉ pivot_index df -> pivot df !! i = None.
Proof.
  intros Hi. destruct (pivot df !! i) as [l |] eqn:E; [| reflexivity].
  exfalso. apply Hi. unfold pivot in E.
  apply lookup_set_to_map in E as (y & Hy & Ey).
  - now inversion Ey; subst.
  - intros ? ? _ _ Hfst. exact Hfst.
Qed.

Lemma join_cv_in sqrt df r :
  a_item_id (agg r) ∈ pivot_index df ->
  join_cv (cv sqrt df) r = cv_of_row sqrt (pivot_row df (a_item_id (agg r))).
Proof.
  intros Hi. unfold join_cv, cv.
  now rewrite lookup_fmap, (pivot_lookup_in _ _ Hi).
Qed.

Lemma join_cv_out sqrt df r :
  a_item_id (agg r) ∉ pivot_index df -> join_cv (cv sqrt df) r = NaN.
Proof.
  intros Hi. unfold join_cv, cv.
  now rewrite lookup_fmap, (pivot_lookup_out _ _ Hi).
Qed.

(** The items of the monthly table are those with a dated row. *)
Lemma dom_monthly_qty df i m :
  is_Some (monthly_qty df !! (i, m)) <->
  exists r d, r ∈ df /\ item_id r = Some i /\ date r = Some d /\ month_end d = m.
Proof.
  unfold monthly_qty.
  assert (G : forall acc : gmap (string * (Z * Z)) Q,
    is_Some (fold_left (fun m r =>
      match item_id r, date r with
      | Some i, Some d =>
          let k := (i, month_end d) in
          <[ k := match m !! k with Some s => s + qty r | None => qty r end ]> m
      | _, _ => m
      end) df acc !! (i, m)) <->
    is_Some (acc !! (i, m)) \/
    exists r d, r ∈ df /\ item_id r = Some i /\ date r = Some d /\ month_end d = m).
  { induction df as [| r df IH]; intros acc; simpl.
    - split; [auto |]. intros [H | (r & d & H%elem_of_nil & _)]; tauto.
    - rewrite IH. split.
      + intros [H | (r' & d & Hin & Hr)].
        * destruct (item_id r) as [i' |] eqn:Ei; [| auto].
          destruct (date r) as [d |] eqn:Ed; [| auto].
          simpl in H. rewrite lookup_insert_is_Some in H.
          destruct H as [E | [_ H]]; [| auto].
          inversion E; subst. right. exists r, d.
          split; [apply list_elem_of_here | auto].
        * right. exists r', d. split; [now apply list_elem_of_further | exact Hr].
      + intros [H | (r' & d & Hin & Hi & Hd & Hm)].
        * left. destruct (item_id r), (date r); auto. simpl.
          rewrite lookup_insert_is_Some. destruct (decide ((s, month_end t) = (i, m))); auto.
        * apply elem_of_cons in Hin as [-> | Hin].
          -- left. rewrite Hi, Hd. simpl. rewrite Hm.
             rewrite lookup_insert_is_Some. auto.
          -- right. exists r', d. auto. }
  rewrite G, lookup_empty. split; [| auto].
  intros [[x H] | H]; [discriminate | exact H].
Qed.

Lemma pivot_index_rows df i :
  i ∈ pivot_index df <->
  exists r, r ∈ df /\ item_id r = Some i /\ is_Some (date r).
Proof.
  rewrite pivot_index_monthly. split.
  - intros (m & (r & d & Hin & Hi & Hd & _)%dom_monthly_qty).
    exists r. rewrite Hd. eauto.
  - intros (r & Hin & Hi & [d Hd]). exists (month_end d).
    apply dom_monthly_qty. exists r, d. auto.
Qed.

Lemma Qofnat_S n : Qofnat (S n) == Qofnat n + 1.
Proof.
  unfold Qofnat. rewrite Nat2Z.inj_succ, <- Z.add_1_r, inject_Z_plus.
  reflexivity.
Qed.

Lemma Qofnat_pos n : (0 < n)%nat -> 0 < Qofnat n.
Proof.
  intros H. unfold Qofnat. change 0 with (inject_Z 0).
  rewrite <- Zlt_Qlt. lia.
Qed.

Lemma sum_constant c l :
  Forall (fun q => q == c) l -> sum l == Qofnat (length l) * c.
Proof.
  induction 1 as [| x l Hx _ IH].
  - unfold sum, Qofnat. simpl. ring.
  - rewrite sum_cons, IH, Hx. cbn [length]. rewrite Qofnat_S. ring.
Qed.

Lemma mean_constant c l :
  l <> [] -> Forall (fun q => q == c) l -> sum l / Qofnat (length l) == c.
Proof.
  intros Hne H. rewrite (sum_constant c l H).
  assert (0 < Qofnat (length l)).
  { apply Qofnat_pos. destruct l; [contradiction | simpl; lia]. }
  field. lra.
Qed.

Section Coefficient_of_variation.

Variable sqrt : Q -> Q.

Hypothesis sqrt_zero : forall q, q == 0 -> sqrt q == 0.

(** A line of equal non-zero quantities has no variation. *)
Lemma cv_of_row_constant c l :
  l <> [] -> ~ c == 0 -> Forall (fun q => q == c) l ->
  exists v, cv_of_row sqrt l = Fin v /\ v == 0.
Proof.
  intros Hne Hc Hl. pose proof (mean_constant c l Hne Hl) as Hm.
  unfold cv_of_row.
  assert (Em : replace0nan (mean l) = Fin (sum l / Qofnat (length l))).
  { unfold mean. destruct l; [contradiction |]. unfold replace0nan.
    assert (E : Qeq_bool (sum (q :: l) / Qofnat (length (q :: l))) 0 = false).
    { apply Qeq_bool_false_iff. now rewrite Hm. }
    now rewrite E. }
  rewrite Em. unfold std. destruct (length l <=? 1)%nat.
  - exists 0. split; reflexivity.
  - cbv zeta.
    assert (Ez : Qeq_bool (sum l / Qofnat (length l)) 0 = false).
    { apply Qeq_bool_false_iff. now rewrite Hm. }
    eexists. split.
    + unfold fdiv. rewrite Ez. reflexivity.
    + rewrite sqrt_zero; [unfold Qdiv; ring |].
      rewrite sum_zero; [unfold Qdiv; ring |].
      apply List.Forall_map. eapply List.Forall_impl; [| exact Hl].
      intros x Hx. simpl in Hx. rewrite Hx, Hm. ring.
Qed.

End Coefficient_of_variation.

Lemma Qsqrt_zero q : q == 0 -> Qsqrt q == 0.
Proof.
  unfold Qeq. simpl. rewrite Z.mul_1_r. intros ->. reflexivity.
Qed.

(** *** The same line with the rounding of float64 *)

Lemma fdiv_r_nonzero rnd a b :
  ~ b == 0 -> fdiv_r rnd (Fin a) (Fin b) = rnd (a / b).
Proof.
  intros Hb. simpl.
  assert (H : Qeq_bool b 0 = false) by now apply Qeq_bool_false_iff.
  now rewrite H.
Qed.

Lemma mean_r_nonempty rnd sum_f l :
  l <> [] ->
  mean_r rnd sum_f l = fdiv_r rnd (sum_f l) (Fin (Qofnat (length l))).
Proof. destruct l; [contradiction | reflexivity]. Qed.

Lemma replace0nan_nonzero m : ~ m == 0 -> replace0nan (Fin m) = Fin m.
Proof.
  intros Hm. simpl.
  assert (H : Qeq_bool m 0 = false) by now apply Qeq_bool_false_iff.
  now rewrite H.
Qed.

Section Coefficient_of_variation_rounded.

Variable rnd : Q -> fnum.
Variable sqrt_r : Q -> fnum.
Variable sum_f : list fnum -> fnum.
Variable sqrt : Q -> Q.

(** Rounding keeps the order and 0 is a float; the square root of 0 is
    0; a sum of zeros is 0, in whatever order it is added. *)
Hypothesis rnd_monotone : forall a b, a <= b -> fle (rnd a) (rnd b).
Hypothesis rnd_zero : feq (rnd 0) (Fin 0).
Hypothesis sqrt_r_zero : forall a, a == 0 -> feq (sqrt_r a) (Fin 0).
Hypothesis sum_f_zero :
  forall l, Forall (fun x => feq x (Fin 0)) l -> feq (sum_f l) (Fin 0).
Hypothesis sqrt_zero : forall q, q == 0 -> sqrt q == 0.

Lemma rnd_of_zero a : a == 0 -> exists z, rnd a = Fin z /\ z == 0.
Proof.
  intros E. apply feq_Fin_inv.
  pose proof (rnd_Qeq rnd rnd_monotone a 0 E) as H.
  destruct (feq_Fin_inv _ _ rnd_zero) as (z & Ez & Hz). rewrite Ez in H.
  destruct (rnd a); simpl in H |- *; try tauto. now rewrite H.
Qed.

(** A line of one and the same non-zero float, whose sum comes out
    exact, has no variation: the mean is that float, every deviation is
    0, and so are the standard deviation and the quotient. *)
Lemma cv_of_row_r_constant c l :
  l <> [] -> ~ c == 0 -> Forall (fun q => q == c) l ->
  feq (rnd c) (Fin c) ->
  feq (sum_f (map Fin l)) (Fin (sum l)) ->
  exists v, cv_of_row_r rnd sqrt_r sum_f (map Fin l) = Fin v /\ v == 0.
Proof.
  intros Hne Hc Hl Hrc Hs.
  pose proof (mean_constant c l Hne Hl) as Hm.
  assert (Hn : ~ Qofnat (length l) == 0).
  { assert (0 < Qofnat (length l)); [| lra].
    apply Qofnat_pos. destruct l; [contradiction | simpl; lia]. }
  destruct (feq_Fin_inv _ _ Hs) as (s & Es & Hs').
  assert (Hmean : exists m,
             fdiv_r rnd (sum_f (map Fin l)) (Fin (Qofnat (length l))) = Fin m
             /\ m == c).
  { rewrite Es, fdiv_r_nonzero by exact Hn. apply feq_Fin_inv.
    assert (E : s / Qofnat (length l) == c) by (rewrite Hs'; exact Hm).
    pose proof (rnd_Qeq rnd rnd_monotone _ _ E) as H1.
    destruct (feq_Fin_inv _ _ Hrc) as (c' & Ec & Hc'). rewrite Ec in H1.
    destruct (rnd (s / Qofnat (length l))); simpl in H1 |- *; try tauto.
    now rewrite H1. }
  destruct Hmean as (m & Em & Hmc).
  assert (Hm0 : ~ m == 0) by now rewrite Hmc.
  unfold cv_of_row_r, std_r. rewrite mean_r_nonempty.
  2:{ destruct l; [contradiction | discriminate]. }
  cbv zeta. rewrite !length_map, Em, (replace0nan_nonzero m Hm0).
  destruct (length l <=? 1)%nat eqn:Elen.
  { exists 0. split; reflexivity. }
  apply Nat.leb_gt in Elen.
  assert (Hsq : Forall (fun x => feq x (Fin 0))
                  (map (fun x => fmul_r rnd (fsub_r rnd x (Fin m))
                                            (fsub_r rnd x (Fin m)))
                       (map Fin l))).
  { rewrite map_map. apply List.Forall_map.
    eapply List.Forall_impl; [| exact Hl]. intros x Hx. simpl in Hx.
    cbn [fsub_r fneg fadd_r].
    destruct (rnd_of_zero (x + - m)) as (d & -> & Hd).
    { rewrite Hx, Hmc. ring. }
    cbn [fmul_r].
    destruct (rnd_of_zero (d * d)) as (e & -> & He).
    { rewrite Hd. ring. }
    exact He. }
  destruct (feq_Fin_inv _ _ (sum_f_zero _ Hsq)) as (z & -> & Hz).
  assert (Hk : ~ Qofnat (length l - 1) == 0).
  { assert (0 < Qofnat (length l - 1)); [| lra]. apply Qofnat_pos. lia. }
  rewrite fdiv_r_nonzero by exact Hk.
  destruct (rnd_of_zero (z / Qofnat (length l - 1))) as (w & -> & Hw).
  { rewrite Hz. unfold Qdiv. ring. }
  cbn [fsqrt_r].
  assert (Hw' : Qle_bool 0 w = true) by (apply Qle_bool_iff; rewrite Hw; lra).
  rewrite Hw'.
  destruct (feq_Fin_inv _ _ (sqrt_r_zero w Hw)) as (t & -> & Ht).
  rewrite fdiv_r_nonzero by exact Hm0.
  destruct (rnd_of_zero (t / m)) as (v & -> & Hv).
  { rewrite Ht. unfold Qdiv. ring. }
  exists v. split; [reflexivity | exact Hv].
Qed.


End Coefficient_of_variation_rounded.

(** A sum of zeros in row order is 0. *)
Lemma fold_fadd_r_zero rnd l a :
  (forall a b, a <= b -> fle (rnd a) (rnd b)) -> feq (rnd 0) (Fin 0) ->
  a == 0 -> Forall (fun x => feq x (Fin 0)) l ->
  feq (fold_left (fadd_r rnd) l (Fin a)) (Fin 0).
Proof.
  intros Hm H0 Ha H. revert a Ha.
  induction H as [| x l Hx _ IH]; intros a Ha; cbn [fold_left].
  - exact Ha.
  - destruct x; simpl in Hx; try tauto. cbn [fadd_r].
    destruct (rnd_of_zero rnd Hm H0 (a + q)) as (z & -> & Hz).
    { rewrite Ha, Hx. reflexivity. }
    now apply IH.
Qed.

Lemma sum_r_fix_zero l :
  Forall (fun x => feq x (Fin 0)) l -> feq (sum_r rnd_fix l) (Fin 0).
Proof.
  apply fold_fadd_r_zero;
    [exact rnd_fix_monotone | exact rnd_fix_zero | reflexivity].
Qed.

Lemma sqrt_fix_zero a : a == 0 -> feq (sqrt_fix a) (Fin 0).
Proof.
  intros E%Qsqrt_zero. unfold sqrt_fix.
  destruct (rnd_of_zero rnd_fix rnd_fix_monotone rnd_fix_zero _ E)
    as (z & -> & Hz).
  exact Hz.
Qed.


(** The rounded computation on the two lines named below: 10, 10 and
    0, 10. *)
Example cv_of_row_rounded :
  cv_of_row_r rnd_fix sqrt_fix (sum_r rnd_fix) (map Fin [10; 10])
  = Fin (0 # 1024) /\
  cv_of_row_r rnd_fix sqrt_fix (sum_r rnd_fix) (map Fin [0; 10])
  = Fin (1448 # 1024) /\
  xyz_label (Fin (1448 # 1024)) = "Z".
Proof. repeat split; vm_compute; reflexivity. Qed.


(** P1 sells 10 units in each of the two months of [df_nodate]. *)
Example constant_quantity_line :
  pivot_columns df_nodate = [(2024, 1); (2024, 2)]%Z /\
  pivot_row df_nodate "P1" = [10; 10] /\
  cv_of_row Qsqrt [10; 10] = Fin (0 # 320000000) /\
  xyz_label (cv_of_row Qsqrt [10; 10]) = "X".
Proof. repeat split; vm_compute; reflexivity. Qed.

(** The pivot fills the months in which an item has no row with 0: in
    [df_zero] each item has one month of its own, and neither line of the
    pivot is constant. *)
Example pivot_fills_other_months :
  pivot_row df_zero "P1" = [3; 0] /\
  pivot_row df_zero "P2" = [0; 4] /\
  map XYZ (classify sort_desc Qsqrt df_zero) = ["Z"; "Z"]%string.
Proof. repeat split; vm_compute; reflexivity. Qed.

(** ** C6: an item of the table without a line in the monthly series *)

Lemma xyz_label_NaN : xyz_label NaN = "Z".
Proof. reflexivity. Qed.

(** The join leaves NaN for such an item: the [fillna(0)] of line 64 ran
    before the join of line 65.  The threshold lambda then answers Z. *)
Lemma join_without_monthly_line sort_values sqrt df r :
  r ∈ classify sort_values sqrt df ->
  a_item_id (agg (abc r)) ∉ pivot_index df ->
  CV r = NaN /\ XYZ r = "Z".
Proof.
  intros (_ & HCV & HXYZ & _)%classify_rows Hout.
  rewrite (join_cv_out _ _ _ Hout) in HCV. rewrite HXYZ, HCV. auto.
Qed.

(** C6 on the code.  In [df_nodate] the only row of item P2 has an empty
    date cell: P2 is in the table of totals and not in the monthly
    series.  Its CV is NaN, not 0, and its label is Z, not X. *)
Theorem absent_item_gets_NaN_and_Z :
  groupby_sum df_nodate
  = [mkagg "P1" "bolt" (60 + 40) (10 + 10); mkagg "P2" "nut" 50 5] /\
  ("P2"%string ∉ pivot_index df_nodate) /\
  map (fun r => (a_item_id (agg (abc r)), CV r, XYZ r, ABC_XYZ r))
      (classify sort_desc Qsqrt df_nodate)
  = [("P1", Fin (0 # 320000000), "X", "A/X"); ("P2", NaN, "Z", "C/Z")]%string.
Proof.
  split; [vm_compute; reflexivity |].
  split; [| vm_compute; reflexivity].
  rewrite pivot_index_rows. intros (r & Hin & Hi & Hd).
  unfold df_nodate in Hin. rewrite !elem_of_cons, elem_of_nil in Hin.
  destruct Hin as [-> | [-> | [-> | []]]]; simpl in *;
    try discriminate. now destruct Hd.
Qed.

(** ** The whole run on the sample files *)

Example run_all_segments :
  run sort_desc Qsqrt file_pareto "All" nine_segments
  = Done (with_advice (classify sort_desc Qsqrt
                         [ mkrow (Some "P1") (Some "bolt") 700 10 (Some jan)
                                 {[ "Group" := "steel" ]};
                           mkrow (Some "P2") (Some "nut") 200 10 (Some jan)
                                 {[ "Group" := "steel" ]};
                           mkrow (Some "P3") (Some "washer") 100 0 (Some jan)
                                 {[ "Group" := "brass" ]} ]))%string.
Proof. vm_compute. reflexivity. Qed.

Example run_one_category :
  match run sort_desc Qsqrt file_pareto "steel" nine_segments with
  | Done t =>
      map (fun o => (a_item_id (agg (abc (cls o))), ABC_XYZ (cls o),
                     Replenishment_Advice o)) t
      = [ ("P1", "B/X", Some "Reorder bi-weekly with fixed reorder point.");
          ("P2", "C/X", Some "Low-priority reorder, maintain minimum stock.") ]%string
  | _ => False
  end.
Proof. vm_compute. reflexivity. Qed.

Example run_stops_without_required_column :
  run sort_desc Qsqrt file_no_qty "All" nine_segments
  = Stopped "Missing columns.".
Proof. vm_compute. reflexivity. Qed.

Example run_raises_on_bad_date :
  run sort_desc Qsqrt file_bad_date "All" nine_segments = Raised "ValueError".
Proof. vm_compute. reflexivity. Qed.

Example run_raises_on_empty_table :
  run sort_desc Qsqrt (mkframe (columns file_pareto) []) "All" nine_segments
  = Raised "TypeError".
Proof. vm_compute. reflexivity. Qed.

(** ** The lambdas on binary64 at the values named above *)

Example binary64_labels :
  Binary64.abc_label (700 / 1000) = "A" /\
  Binary64.abc_label ((700 + 200) / 1000) = "B" /\
  Binary64.abc_label ((700 + 200 + 100) / 1000) = "C" /\
  Binary64.abc_label (0 / 0) = "C" /\
  Binary64.abc_label (5 / 0) = "C" /\
  Binary64.xyz_label (0 / 10) = "X" /\
  Binary64.xyz_label (0 / 0) = "Z".
Proof. repeat split; vm_compute; reflexivity. Qed.

(** * Further properties of the script *)

(** ** Lines 29-33 and 43-45: the two ways a run ends early *)

Lemma has_required_iff cols :
  has_required cols = true <->
  Forall (fun c => c ∈ cols) ["item_id"; "description"; "sales"; "qty"; "date"]%string.
Proof.
  unfold has_required, required_cols. rewrite bool_decide_eq_true.
  rewrite !Forall_cons, Forall_nil. split.
  - intros H. repeat split; try exact I;
      apply (elem_of_list_to_set (C:=gset string)), H; set_solver.
  - intros (H1 & H2 & H3 & H4 & H5 & _) x Hx.
    apply elem_of_list_to_set.
    rewrite !elem_of_union, !elem_of_singleton in Hx.
    destruct Hx as [[[[-> | ->] | ->] | ->] | ->]; assumption.
Qed.

Lemma parse_dates_raises rs :
  (exists r, r ∈ rs /\ raw_date r = DateUnparsable) ->
  parse_dates rs = Raised "ValueError".
Proof.
  induction rs as [| r rs IH]; intros (r' & Hin & Hbad).
  - now apply elem_of_nil in Hin.
  - simpl. apply elem_of_cons in Hin as [<- | Hin].
    + rewrite Hbad. reflexivity.
    + rewrite IH by eauto. destruct (raw_date r); reflexivity.
Qed.

Lemma parse_dates_done rs :
  (forall r, r ∈ rs -> raw_date r <> DateUnparsable) ->
  parse_dates rs
  = Done (map (fun r => match raw_date r with DateValue d => Some d | _ => None end) rs).
Proof.
  induction rs as [| r rs IH]; intros H; simpl; [reflexivity |].
  rewrite IH by (intros r' Hr'; apply H; now apply list_elem_of_further).
  specialize (H r (list_elem_of_here _ _)).
  destruct (raw_date r); [reflexivity | reflexivity | contradiction].
Qed.

Lemma zip_with_map_r {X Y Z0 : Type} (f : X -> Y -> Z0) (g : X -> Y) l :
  zip_with f l (map g l) = map (fun x => f x (g x)) l.
Proof. induction l as [| x l IH]; simpl; [reflexivity | now rewrite IH]. Qed.

Lemma clean_raises rs :
  (exists r, r ∈ rs /\ raw_date r = DateUnparsable) ->
  clean rs = Raised "ValueError".
Proof. intros H. unfold clean. now rewrite parse_dates_raises. Qed.

Lemma clean_done rs :
  (forall r, r ∈ rs -> raw_date r <> DateUnparsable) ->
  clean rs = Done (map cleaned_row rs).
Proof.
  intros H. unfold clean. rewrite parse_dates_done by exact H.
  cbn [obind]. f_equal.
  exact (zip_with_map_r
           (fun r d =>
              mkrow (raw_item_id r) (raw_description r)
                    (to_numeric_fillna0 (raw_sales r))
                    (to_numeric_fillna0 (raw_qty r)) d (raw_extra r))
           (fun r => match raw_date r with DateValue d => Some d | _ => None end)
           rs).
Qed.

Lemma parse_dates_same_dates rs rs' :
  map raw_date rs' = map raw_date rs -> parse_dates rs' = parse_dates rs.
Proof.
  revert rs'. induction rs as [| r rs IH]; intros [| r' rs'] E;
    try discriminate E; [reflexivity |].
  cbn [map] in E. injection E as E1 E2. cbn [parse_dates].
  now rewrite E1, (IH rs' E2).
Qed.

Lemma clean_done_no_bad_date rs df :
  clean rs = Done df -> forall r, r ∈ rs -> raw_date r <> DateUnparsable.
Proof.
  intros H r Hin Hbad. rewrite clean_raises in H by eauto. discriminate H.
Qed.


Lemma run_stops_iff sort_values sqrt f selected_cat selected_abcxyz :
  (exists msg, run sort_values sqrt f selected_cat selected_abcxyz = Stopped msg)
  <-> has_required (columns f) = false.
Proof.
  unfold run. destruct (has_required (columns f)) eqn:E.
  - split; [| discriminate]. intros [msg H].
    destruct (clean (rows f)) eqn:Ec; simpl in H; try discriminate.
    { destruct (groupby_sum _); discriminate H. }
    exfalso. unfold clean in Ec.
    destruct (parse_dates (rows f)) eqn:Ep; simpl in Ec; try discriminate.
    clear -Ep. revert Ep. generalize (rows f). intros rs.
    induction rs as [| r rs IH]; simpl; [discriminate |].
    destruct (raw_date r); simpl; try discriminate;
      destruct (parse_dates rs); simpl; try discriminate; now apply IH.
  - split; [reflexivity | eauto].
Qed.

Lemma run_raises sort_values sqrt f selected_cat selected_abcxyz :
  has_required (columns f) = true ->
  (exists r, r ∈ rows f /\ raw_date r = DateUnparsable) ->
  run sort_values sqrt f selected_cat selected_abcxyz = Raised "ValueError".
Proof.
  intros E Hb. unfold run. rewrite E, (clean_raises (rows f) Hb). reflexivity.
Qed.

(** Lines 9-45.  The script stops exactly in two cases: no API key in the
    environment, whatever file is uploaded, or an uploaded file that
    lacks one of the five required columns, whatever its rows hold.
    With a key and the five columns, one date cell that cannot be parsed
    makes the run raise; with a key and no file nothing is computed. *)
Theorem script_stops_iff :
  forall (api_key : option string) (uploaded_file : option frame)
         (sort_values : list agg_row -> list agg_row) (sqrt : Q -> Q)
         (selected_cat : string) (selected_abcxyz : list string),
    let out := script api_key uploaded_file sort_values sqrt
                      selected_cat selected_abcxyz in
    let no_key := api_key = None \/ api_key = Some ""%string in
    let complete f :=
      Forall (fun c => c ∈ columns f)
             ["item_id"; "description"; "sales"; "qty"; "date"]%string in
    ((exists msg, out = Stopped msg) <->
     no_key \/ exists f, uploaded_file = Some f /\ ~ complete f) /\
    (~ no_key -> uploaded_file = None -> out = Done None) /\
    (forall f, ~ no_key -> uploaded_file = Some f -> complete f ->
       (exists r, r ∈ rows f /\ raw_date r = DateUnparsable) ->
       out = Raised "ValueError").
Proof.
  intros api_key uploaded_file sort_values sqrt selected_cat selected_abcxyz
         out no_key complete.
  subst out no_key complete. unfold script. cbv beta.
  destruct api_key as [key |].
  2: { split; [| split].
       - split; eauto.
       - intros H. exfalso. apply H. now left.
       - intros f H. exfalso. apply H. now left. }
  destruct (String.eqb_spec key "") as [-> | Hkey].
  { split; [| split].
    - split; eauto.
    - intros H. exfalso. apply H. now right.
    - intros f H. exfalso. apply H. now right. }
  assert (Hk : ~ (Some key = None \/ Some key = Some ""%string)).
  { intros [H | H]; [discriminate | congruence]. }
  destruct uploaded_file as [f |].
  - pose proof (run_stops_iff sort_values sqrt f selected_cat selected_abcxyz)
      as Hs.
    split; [| split].
    + split.
      * intros [msg H]. right. exists f. split; [reflexivity |].
        rewrite <- has_required_iff.
        destruct (run sort_values sqrt f selected_cat selected_abcxyz) eqn:Er;
          simpl in H; try discriminate.
        assert (Hf : has_required (columns f) = false) by (apply Hs; eauto).
        congruence.
      * intros [H | (f' & [= <-] & Hc)]; [contradiction |].
        rewrite <- has_required_iff in Hc.
        assert (Hf : has_required (columns f) = false)
          by (destruct (has_required (columns f)); congruence).
        apply Hs in Hf as [msg ->]. simpl. eauto.
    + discriminate.
    + intros f' _ [= <-] Hc%has_required_iff Hb.
      now rewrite (run_raises _ _ _ _ _ Hc Hb).
  - split; [| split].
    + split; [discriminate 1 || (intros [? ?]; discriminate) |].
      intros [H | (f & H & _)]; [contradiction | discriminate].
    + reflexivity.
    + discriminate.
Qed.

Example script_without_key :
  script None (Some file_pareto) sort_desc Qsqrt "All" nine_segments
  = Stopped "OPENAI_API_KEY not found." /\
  script (Some ""%string) (Some file_pareto) sort_desc Qsqrt "All" nine_segments
  = Stopped "OPENAI_API_KEY not found." /\
  script (Some "sk"%string) None sort_desc Qsqrt "All" nine_segments = Done None /\
  script (Some "sk"%string) (Some file_no_qty) sort_desc Qsqrt "All" nine_segments
  = Stopped "Missing columns.".
Proof. repeat split; vm_compute; reflexivity. Qed.

(** ** Line 55: the table of totals *)

Lemma string_compare_refl a : String.compare a a = Eq.
Proof. now apply OrderedTypeEx.String_as_OT.cmp_eq. Qed.

Lemma string_compare_trans a b c :
  String.compare a b = Lt -> String.compare b c = Lt -> String.compare a c = Lt.
Proof.
  intros H1%OrderedTypeEx.String_as_OT.cmp_lt H2%OrderedTypeEx.String_as_OT.cmp_lt.
  apply OrderedTypeEx.String_as_OT.cmp_lt.
  eapply OrderedTypeEx.String_as_OT.lt_trans; eassumption.
Qed.

Lemma key_compare_Eq i d i' d' :
  key_compare i d i' d' = Eq -> i = i' /\ d = d'.
Proof.
  unfold key_compare. destruct (String.compare i i') eqn:E; try discriminate.
  intros H. split; now apply String.compare_eq_iff.
Qed.

Lemma key_compare_Gt i d i' d' :
  key_compare i d i' d' = Gt -> key_compare i' d' i d = Lt.
Proof.
  unfold key_compare. rewrite (String.compare_antisym i' i).
  destruct (String.compare i i'); simpl; try discriminate; [| reflexivity].
  rewrite (String.compare_antisym d' d).
  destruct (String.compare d d'); simpl; congruence.
Qed.

Lemma key_lt_irrefl k : ~ key_lt k k.
Proof.
  unfold key_lt, key_compare. now rewrite !string_compare_refl.
Qed.

Lemma key_lt_trans k1 k2 k3 : key_lt k1 k2 -> key_lt k2 k3 -> key_lt k1 k3.
Proof.
  destruct k1 as [i1 d1], k2 as [i2 d2], k3 as [i3 d3].
  unfold key_lt, key_compare. simpl.
  destruct (String.compare i1 i2) eqn:E12; try discriminate;
    destruct (String.compare i2 i3) eqn:E23; try discriminate; intros H1 H2.
  - apply String.compare_eq_iff in E12, E23. subst.
    rewrite string_compare_refl. eapply string_compare_trans; eassumption.
  - apply String.compare_eq_iff in E12. subst. now rewrite E23.
  - apply String.compare_eq_iff in E23. subst. now rewrite E12.
  - now rewrite (string_compare_trans _ _ _ E12 E23).
Qed.

Lemma groupby_sum_snoc df r :
  groupby_sum (df ++ [r])
  = match key_of r with
    | Some (i, d) => upsert i d (sales r) (qty r) (groupby_sum df)
    | None => groupby_sum df
    end.
Proof.
  unfold groupby_sum, key_of. rewrite fold_left_app. simpl.
  destruct (item_id r), (description r); reflexivity.
Qed.

Lemma upsert_keys i d s q t k :
  k ∈ map agg_key (upsert i d s q t) <-> k = (i, d) \/ k ∈ map agg_key t.
Proof.
  induction t as [| r t IH]; simpl.
  - rewrite elem_of_cons. reflexivity.
  - destruct (key_compare i d (a_item_id r) (a_description r)) eqn:E; simpl.
    + apply key_compare_Eq in E as [-> ->].
      rewrite !elem_of_cons. unfold agg_key at 1 3. simpl. tauto.
    + rewrite !elem_of_cons. reflexivity.
    + rewrite !elem_of_cons, IH. tauto.
Qed.

Lemma upsert_Sorted i d s q t :
  Sorted key_lt (map agg_key t) ->
  Sorted key_lt (map agg_key (upsert i d s q t)).
Proof.
  induction t as [| r t IH]; intros Ht; simpl.
  - repeat constructor.
  - destruct (key_compare i d (a_item_id r) (a_description r)) eqn:E; simpl.
    + apply key_compare_Eq in E as [-> ->]. exact Ht.
    + constructor; [exact Ht | constructor; exact E].
    + inversion Ht as [| ? ? Hs Hh]; subst. constructor; [now apply IH |].
      destruct t as [| r' t]; simpl.
      * constructor. now apply key_compare_Gt.
      * destruct (key_compare i d (a_item_id r') (a_description r')) eqn:E';
          simpl; constructor.
        -- apply key_compare_Eq in E' as [-> ->]. now inversion Hh.
        -- now apply key_compare_Gt.
        -- now inversion Hh.
Qed.

Lemma sum_app l x : sum (l ++ [x]) == sum l + x.
Proof.
  induction l as [| y l IH]; simpl.
  - unfold sum. simpl. ring.
  - rewrite !sum_cons, IH. ring.
Qed.

Lemma filter_key_sum_in (f : agg_row -> Q) k a t :
  agg_key a = k ->
  sum (map f (filter (fun b => agg_key b = k) (a :: t)))
  == f a + sum (map f (filter (fun b => agg_key b = k) t)).
Proof.
  intros E. rewrite filter_cons. destruct (decide (agg_key a = k));
    [apply sum_cons | contradiction].
Qed.

Lemma filter_key_sum_out (f : agg_row -> Q) k a t :
  agg_key a <> k ->
  sum (map f (filter (fun b => agg_key b = k) (a :: t)))
  == sum (map f (filter (fun b => agg_key b = k) t)).
Proof.
  intros E. rewrite filter_cons. destruct (decide (agg_key a = k));
    [contradiction | reflexivity].
Qed.

(** Adding a row to the table adds its amount to its own group and
    leaves the other groups as they were. *)
Lemma upsert_total (f : agg_row -> Q) (x : Q) i d s q t k :
  f (mkagg i d s q) == x ->
  (forall r, f (mkagg i d (a_sales r + s) (a_qty r + q)) == f r + x) ->
  sum (map f (filter (fun a => agg_key a = k) (upsert i d s q t)))
  == sum (map f (filter (fun a => agg_key a = k) t))
     + (if decide ((i, d) = k) then x else 0).
Proof.
  intros Hnew Hadd. induction t as [| r t IH]; cbn [upsert].
  - destruct (decide ((i, d) = k)) as [E | E].
    + rewrite filter_key_sum_in by exact E. rewrite Hnew. ring.
    + rewrite filter_key_sum_out by exact E. ring.
  - destruct (key_compare i d (a_item_id r) (a_description r)) eqn:Ec.
    + apply key_compare_Eq in Ec as [Ei Ed].
      assert (Er : agg_key r = (i, d)) by (unfold agg_key; congruence).
      destruct (decide ((i, d) = k)) as [E | E].
      * rewrite (filter_key_sum_in f k (mkagg _ _ _ _)) by exact E.
        rewrite (filter_key_sum_in f k r) by congruence.
        rewrite Hadd. ring.
      * rewrite (filter_key_sum_out f k (mkagg _ _ _ _)) by exact E.
        rewrite (filter_key_sum_out f k r) by congruence. ring.
    + destruct (decide ((i, d) = k)) as [E | E].
      * rewrite (filter_key_sum_in f k (mkagg i d s q)) by exact E.
        rewrite Hnew. ring.
      * rewrite (filter_key_sum_out f k (mkagg i d s q)) by exact E. ring.
    + destruct (decide (agg_key r = k)) as [Er | Er].
      * rewrite !(filter_key_sum_in f k r) by exact Er. rewrite IH. ring.
      * rewrite !(filter_key_sum_out f k r) by exact Er. exact IH.
Qed.

Lemma upsert_totals i d s q t k :
  sum (map a_sales (filter (fun a => agg_key a = k) (upsert i d s q t)))
  == sum (map a_sales (filter (fun a => agg_key a = k) t))
     + (if decide ((i, d) = k) then s else 0)
  /\
  sum (map a_qty (filter (fun a => agg_key a = k) (upsert i d s q t)))
  == sum (map a_qty (filter (fun a => agg_key a = k) t))
     + (if decide ((i, d) = k) then q else 0).
Proof.
  split; apply upsert_total; simpl; intros; reflexivity.
Qed.

Lemma rows_of_key_snoc k df r :
  rows_of_key k (df ++ [r])
  = rows_of_key k df ++ (if decide (key_of r = Some k) then [r] else []).
Proof.
  unfold rows_of_key. rewrite filter_app, filter_cons, filter_nil.
  reflexivity.
Qed.

Lemma groupby_sum_Sorted df : Sorted key_lt (map agg_key (groupby_sum df)).
Proof.
  induction df as [| r df IH] using rev_ind; [constructor |].
  rewrite groupby_sum_snoc. destruct (key_of r) as [[i d] |]; [| exact IH].
  now apply upsert_Sorted.
Qed.

Lemma groupby_sum_keys df k :
  k ∈ map agg_key (groupby_sum df) <-> exists r, r ∈ df /\ key_of r = Some k.
Proof.
  induction df as [| r df IH] using rev_ind.
  - simpl. split; [intros H%elem_of_nil | intros (r & H%elem_of_nil & _)];
      contradiction.
  - rewrite groupby_sum_snoc.
    assert (Hsnoc : (exists r', r' ∈ df ++ [r] /\ key_of r' = Some k) <->
                    key_of r = Some k \/ exists r', r' ∈ df /\ key_of r' = Some k).
    { split.
      - intros (r' & [Hin | Hin%list_elem_of_singleton]%elem_of_app & Hk);
          [right; eauto | left; congruence].
      - intros [Hk | (r' & Hin & Hk)].
        + exists r. split; [apply elem_of_app; right; apply list_elem_of_here | exact Hk].
        + exists r'. split; [apply elem_of_app; now left | exact Hk]. }
    rewrite Hsnoc, <- IH.
    destruct (key_of r) as [[i d] |].
    + rewrite upsert_keys. split; intros [H | H]; auto; left; congruence.
    + split; [auto | intros [H | H]; [discriminate | exact H]].
Qed.

Lemma groupby_sum_totals df k :
  sum (map a_sales (filter (fun a => agg_key a = k) (groupby_sum df)))
  == sum (map sales (rows_of_key k df)) /\
  sum (map a_qty (filter (fun a => agg_key a = k) (groupby_sum df)))
  == sum (map qty (rows_of_key k df)).
Proof.
  induction df as [| r df [IH1 IH2]] using rev_ind.
  - split; reflexivity.
  - rewrite groupby_sum_snoc, rows_of_key_snoc.
    destruct (key_of r) as [[i d] |].
    + destruct (upsert_totals i d (sales r) (qty r) (groupby_sum df) k)
        as [-> ->].
      rewrite IH1, IH2.
      destruct (decide (Some (i, d) = Some k)) as [E | E];
        destruct (decide ((i, d) = k)) as [E' | E']; try congruence.
      * rewrite !List.map_app. cbn [map]. rewrite !sum_app.
        split; reflexivity.
      * rewrite !app_nil_r. split; ring.
    + destruct (decide (None = Some k)); [discriminate |].
      rewrite !app_nil_r. split; assumption.
Qed.

Lemma StronglySorted_key_lt_NoDup l : StronglySorted key_lt l -> NoDup l.
Proof.
  induction 1 as [| k l _ IH Hk]; constructor; [| exact IH].
  intros Hin. rewrite Forall_forall in Hk. eapply key_lt_irrefl, Hk, Hin.
Qed.

Lemma filter_key_none k t :
  k ∉ map agg_key t -> filter (fun b => agg_key b = k) t = [].
Proof.
  induction t as [| r t IH]; intros H; [reflexivity |].
  rewrite filter_cons. simpl in H. rewrite not_elem_of_cons in H.
  destruct H as [Hr Ht]. destruct (decide (agg_key r = k)); [congruence |].
  now apply IH.
Qed.

Lemma filter_own_key t a :
  NoDup (map agg_key t) -> a ∈ t ->
  filter (fun b => agg_key b = agg_key a) t = [a].
Proof.
  induction t as [| r t IH]; intros Hnd Hin; [now apply elem_of_nil in Hin |].
  simpl in Hnd. apply NoDup_cons in Hnd as [Hr Hnd].
  rewrite filter_cons. apply elem_of_cons in Hin as [-> | Hin].
  - destruct (decide _); [| congruence]. f_equal.
    now apply filter_key_none.
  - destruct (decide (agg_key r = agg_key a)) as [E | _]; [| now apply IH].
    exfalso. apply Hr. rewrite E. apply list_elem_of_fmap. eauto.
Qed.

(** Line 55, the groups.  The table of totals has one row per distinct
    (item_id, description) pair found on a row where both are present,
    and no other row. *)
Theorem groupby_sum_one_row_per_key :
  forall df : list row,
    NoDup (map agg_key (groupby_sum df)) /\
    (forall k, k ∈ map agg_key (groupby_sum df) <->
               exists r, r ∈ df /\ key_of r = Some k).
Proof.
  intros df. split; [| apply groupby_sum_keys].
  apply StronglySorted_key_lt_NoDup, Sorted_StronglySorted;
    [intros a b c; apply key_lt_trans | apply groupby_sum_Sorted].
Qed.

(** Line 55, the sums.  Each row of the table of totals holds the sum of
    the sales and the sum of the quantities of the input rows of its
    pair, and there is at least one such input row. *)
Theorem groupby_sum_totals_of_key :
  forall (df : list row) (a : agg_row),
    a ∈ groupby_sum df ->
    rows_of_key (agg_key a) df <> [] /\
    a_sales a == sum (map sales (rows_of_key (agg_key a) df)) /\
    a_qty a == sum (map qty (rows_of_key (agg_key a) df)).
Proof.
  intros df a Ha.
  assert (Hnd : NoDup (map agg_key (groupby_sum df))).
  { apply StronglySorted_key_lt_NoDup, Sorted_StronglySorted;
      [intros x y z; apply key_lt_trans | apply groupby_sum_Sorted]. }
  split.
  - assert (Hk : agg_key a ∈ map agg_key (groupby_sum df))
      by (apply list_elem_of_fmap; eauto).
    apply groupby_sum_keys in Hk as (r & Hin & Hr).
    intros E. assert (Hr' : r ∈ rows_of_key (agg_key a) df).
    { unfold rows_of_key. apply list_elem_of_filter. auto. }
    rewrite E in Hr'. now apply elem_of_nil in Hr'.
  - destruct (groupby_sum_totals df (agg_key a)) as [H1 H2].
    rewrite (filter_own_key _ _ Hnd Ha) in H1, H2. simpl in H1, H2.
    rewrite <- H1, <- H2. unfold sum. simpl. split; ring.
Qed.

Lemma groupby_sum_totals_of_key_witness :
  mkagg "P1" "bolt" (60 + 40) (10 + 10) ∈ groupby_sum df_nodate /\
  rows_of_key (agg_key (mkagg "P1" "bolt" (60 + 40) (10 + 10))) df_nodate <> [] /\
  a_sales (mkagg "P1" "bolt" (60 + 40) (10 + 10))
  == sum (map sales (rows_of_key
                       (agg_key (mkagg "P1" "bolt" (60 + 40) (10 + 10)))
                       df_nodate)) /\
  a_qty (mkagg "P1" "bolt" (60 + 40) (10 + 10))
  == sum (map qty (rows_of_key
                     (agg_key (mkagg "P1" "bolt" (60 + 40) (10 + 10)))
                     df_nodate)).
Proof.
  assert (H : mkagg "P1" "bolt" (60 + 40) (10 + 10) ∈ groupby_sum df_nodate).
  { change (groupby_sum df_nodate)
      with [mkagg "P1" "bolt" (60 + 40) (10 + 10); mkagg "P2" "nut" 50 5].
    apply list_elem_of_here. }
  split; [exact H |].
  exact (groupby_sum_totals_of_key df_nodate _ H).
Defined.

(** ** Lines 48-52: the category filter *)

Lemma groupby_sum_NoDup df : NoDup (map agg_key (groupby_sum df)).
Proof.
  apply StronglySorted_key_lt_NoDup, Sorted_StronglySorted;
    [intros x y z; apply key_lt_trans | apply groupby_sum_Sorted].
Qed.

Lemma groupby_sum_row df a :
  a ∈ groupby_sum df ->
  a_sales a == sum (map sales (rows_of_key (agg_key a) df)) /\
  a_qty a == sum (map qty (rows_of_key (agg_key a) df)).
Proof.
  intros Ha. destruct (groupby_sum_totals df (agg_key a)) as [H1 H2].
  rewrite (filter_own_key _ _ (groupby_sum_NoDup df) Ha) in H1, H2.
  simpl in H1, H2. rewrite <- H1, <- H2. unfold sum. simpl. split; ring.
Qed.

(** Lines 48-55.  Selecting "All" keeps the table as it is.  Selecting a
    category keeps, in order, exactly the rows whose category cell holds
    that value, and the totals of an item then count those rows only:
    what the item sold in another category, or with an empty category
    cell, is left out of its total. *)
Theorem category_filter_restricts_totals :
  forall (col selected_cat : string) (df : list row),
    category_filter (Some col) "All" df = df /\
    (selected_cat <> "All"%string ->
     sublist (category_filter (Some col) selected_cat df) df /\
     (forall r, r ∈ category_filter (Some col) selected_cat df <->
                cell_text col r = Some selected_cat /\ r ∈ df) /\
     (forall a, a ∈ groupby_sum (category_filter (Some col) selected_cat df) ->
        a_sales a
        == sum (map sales (filter (fun r => cell_text col r = Some selected_cat)
                                  (rows_of_key (agg_key a) df))) /\
        a_qty a
        == sum (map qty (filter (fun r => cell_text col r = Some selected_cat)
                                (rows_of_key (agg_key a) df))))).
Proof.
  intros col selected_cat df. split; [reflexivity |].
  intros Hsel. unfold category_filter.
  apply String.eqb_neq in Hsel. rewrite Hsel.
  split; [apply sublist_filter |].
  split;
    [intros r;
     apply (list_elem_of_filter (fun r => cell_text col r = Some selected_cat)) |].
  intros a Ha. apply groupby_sum_row in Ha.
  assert (E : rows_of_key (agg_key a)
                (filter (fun r => cell_text col r = Some selected_cat) df)
              = filter (fun r => cell_text col r = Some selected_cat)
                       (rows_of_key (agg_key a) df)).
  { unfold rows_of_key. rewrite !list_filter_filter.
    apply list_filter_iff. intros r. tauto. }
  now rewrite E in Ha.
Qed.

Lemma category_filter_restricts_totals_witness :
  ("steel" <> "All")%string /\
  category_filter (Some "Group"%string) "All" df_groups = df_groups /\
  (("steel" <> "All")%string ->
   sublist (category_filter (Some "Group"%string) "steel" df_groups) df_groups /\
   (forall r, r ∈ category_filter (Some "Group"%string) "steel" df_groups <->
              cell_text "Group" r = Some "steel"%string /\ r ∈ df_groups) /\
   (forall a,
      a ∈ groupby_sum (category_filter (Some "Group"%string) "steel" df_groups) ->
      a_sales a
      == sum (map sales (filter (fun r => cell_text "Group" r = Some "steel"%string)
                                (rows_of_key (agg_key a) df_groups))) /\
      a_qty a
      == sum (map qty (filter (fun r => cell_text "Group" r = Some "steel"%string)
                              (rows_of_key (agg_key a) df_groups))))).
Proof.
  split; [discriminate |].
  exact (category_filter_restricts_totals "Group" "steel" df_groups).
Defined.

Example category_filter_steel :
  map a_item_id (groupby_sum (category_filter (Some "Group"%string) "steel" df_groups))
  = ["P1"; "P2"]%string.
Proof. vm_compute. reflexivity. Qed.

(** ** Lines 56-58: what the ranking keeps *)

Lemma fle_fleb_trans x y z : fle x y -> fleb y z = true -> fleb x z = true.
Proof.
  intros Hxy Hyz%fleb_fle. apply fleb_fle. eapply fle_trans; eassumption.
Qed.

(** A larger share never gets an earlier letter. *)
Lemma abc_label_monotone x y :
  fle x y -> (abc_rank (abc_label x) <= abc_rank (abc_label y))%nat.
Proof.
  intros Hxy. unfold abc_label.
  destruct (fleb y (Fin (7 # 10))) eqn:E7.
  - rewrite (fle_fleb_trans _ _ _ Hxy E7). vm_compute; lia.
  - destruct (fleb y (Fin (9 # 10))) eqn:E9.
    + rewrite (fle_fleb_trans _ _ _ Hxy E9).
      destruct (fleb x (Fin (7 # 10))); vm_compute; lia.
    + destruct (fleb x (Fin (7 # 10))); [vm_compute; lia |].
      destruct (fleb x (Fin (9 # 10))); vm_compute; lia.
Qed.

Lemma Sorted_map_monotone {X Y : Type} (R : X -> X -> Prop)
    (R' : Y -> Y -> Prop) (f : X -> Y) l :
  (forall a b, R a b -> R' (f a) (f b)) ->
  Sorted R l -> Sorted R' (map f l).
Proof.
  intros Hf. induction 1 as [| x l _ IH Hx]; simpl; constructor; [exact IH |].
  destruct Hx; simpl; constructor. now apply Hf.
Qed.

Lemma abc_classification_ABC sort_values df :
  map ABC (abc_classification sort_values df)
  = map abc_label (map cum_pct (abc_classification sort_values df)).
Proof.
  rewrite List.map_map. apply List.map_ext_in. intros r Hr.
  apply list_elem_of_In in Hr.
  exact (proj1 (abc_classification_rows sort_values df r Hr)).
Qed.

Lemma classify_abc sort_values sqrt df :
  map abc (classify sort_values sqrt df) = abc_classification sort_values df.
Proof.
  unfold classify. rewrite List.map_map. simpl. apply List.map_id.
Qed.

Section Ranking.

Variable sort_values : list agg_row -> list agg_row.

Hypothesis sort_values_Permutation :
  forall t, Permutation (sort_values t) t.

(** The shares of a table without negative totals, whose grand total is
    positive. *)
Lemma shares_of_nonneg_table df :
  Forall (fun a => 0 <= a_sales a) (groupby_sum df) ->
  0 < sum (map a_sales (groupby_sum df)) ->
  let col := map a_sales (sort_values (groupby_sum df)) in
  Forall (fun x => 0 <= x) col /\ 0 < sum col /\
  map cum_pct (abc_classification sort_values df)
  = map (fun c => Fin (c / sum col)) (cumsum col).
Proof.
  intros Hpos Htot col.
  assert (Hcol : Forall (fun x => 0 <= x) col).
  { subst col. apply List.Forall_map.
    eapply Permutation_Forall; [| exact Hpos].
    symmetry. apply sort_values_Permutation. }
  assert (Hsum : 0 < sum col).
  { subst col.
    rewrite (sum_Permutation _ (map a_sales (groupby_sum df))); [exact Htot |].
    apply Permutation_map, sort_values_Permutation. }
  split; [exact Hcol |]. split; [exact Hsum |].
  rewrite abc_classification_cum_pct. unfold cum_pct_col. fold col.
  apply List.map_ext. intros c. now apply fdiv_pos.
Qed.

(** Lines 56-65.  The classified table holds each row of the table of
    totals exactly once: the ranking and the join neither drop nor repeat
    an item. *)
Theorem classify_keeps_every_group :
  forall (sqrt : Q -> Q) (df : list row),
    Permutation (map (fun r => agg (abc r)) (classify sort_values sqrt df))
                (groupby_sum df) /\
    NoDup (map (fun r => agg_key (agg (abc r))) (classify sort_values sqrt df)) /\
    length (classify sort_values sqrt df) = length (groupby_sum df).
Proof.
  intros sqrt df.
  assert (P : Permutation (map (fun r => agg (abc r))
                               (classify sort_values sqrt df))
                          (groupby_sum df)).
  { rewrite <- (List.map_map abc agg), classify_abc, abc_classification_agg.
    apply sort_values_Permutation. }
  split; [exact P |]. split.
  - rewrite <- (List.map_map (fun r => agg (abc r)) agg_key).
    apply (NoDup_Permutation_proper _ _ (Permutation_map agg_key P)).
    apply groupby_sum_NoDup.
  - rewrite <- (length_map (fun r => agg (abc r))).
    now apply Permutation_length.
Qed.


End Ranking.

Lemma classify_keeps_every_group_witness :
  (forall t, Permutation (sort_desc t) t) /\
  Permutation (map (fun r => agg (abc r)) (classify sort_desc Qsqrt df_pareto))
              (groupby_sum df_pareto) /\
  NoDup (map (fun r => agg_key (agg (abc r))) (classify sort_desc Qsqrt df_pareto)) /\
  length (classify sort_desc Qsqrt df_pareto) = length (groupby_sum df_pareto).
Proof.
  split; [exact sort_desc_Permutation |].
  exact (classify_keeps_every_group sort_desc sort_desc_Permutation Qsqrt df_pareto).
Defined.


(** An item alone in the table. *)
Example single_item_is_C :
  map (fun r => (cum_pct r, ABC r))
      (abc_classification sort_desc [sale "P1" "bolt" 25 1 (Some jan)])
  = [(Fin (25 # 25), "C"%string)].
Proof. vm_compute. reflexivity. Qed.

(** ** Lines 61-62: the monthly table and the pivot *)

Lemma monthly_qty_snoc df r :
  monthly_qty (df ++ [r])
  = match month_key r with
    | Some k =>
        <[ k := match monthly_qty df !! k with
                | Some s => s + qty r
                | None => qty r
                end ]> (monthly_qty df)
    | None => monthly_qty df
    end.
Proof.
  unfold monthly_qty, month_key. rewrite fold_left_app. simpl.
  destruct (item_id r), (date r); reflexivity.
Qed.

Lemma rows_of_month_snoc k df r :
  rows_of_month k (df ++ [r])
  = rows_of_month k df ++ (if decide (month_key r = Some k) then [r] else []).
Proof.
  unfold rows_of_month. rewrite filter_app, filter_cons, filter_nil.
  reflexivity.
Qed.

Lemma monthly_qty_value df k :
  match monthly_qty df !! k with
  | Some v => rows_of_month k df <> [] /\ v == sum (map qty (rows_of_month k df))
  | None => rows_of_month k df = []
  end.
Proof.
  induction df as [| r df IH] using rev_ind.
  - unfold monthly_qty. simpl. rewrite lookup_empty. reflexivity.
  - rewrite monthly_qty_snoc, rows_of_month_snoc.
    destruct (month_key r) as [k' |].
    + destruct (decide (k' = k)) as [-> | Hne].
      * rewrite lookup_insert_eq.
        destruct (decide (Some k = Some k)); [| congruence].
        split; [now destruct (rows_of_month k df) |].
        rewrite List.map_app. cbn [map]. rewrite sum_app.
        destruct (monthly_qty df !! k) as [s |].
        -- destruct IH as [_ ->]. reflexivity.
        -- rewrite IH. unfold sum. simpl. ring.
      * rewrite lookup_insert_ne by exact Hne.
        destruct (decide (Some k' = Some k)); [congruence |].
        now rewrite app_nil_r.
    + destruct (decide (None = Some k)); [discriminate |].
      now rewrite app_nil_r.
Qed.

(** Line 61.  In a table where some identified row has a date, the
    monthly table has an entry for an item and a month exactly when some
    row of that item is dated in that month, and the entry is the sum of
    the quantities of those rows.  Rows without an item_id or without a
    date count for no entry. *)
Theorem monthly_qty_is_sum_of_month :
  forall (df : list row) (i : string) (m : Z * Z),
    (exists x, x ∈ df /\ is_Some (item_id x) /\ is_Some (date x)) ->
    (monthly_qty df !! (i, m) = None <-> rows_of_month (i, m) df = []) /\
    (forall v, monthly_qty df !! (i, m) = Some v ->
               v == sum (map qty (rows_of_month (i, m) df))).
Proof.
  intros df i m _. pose proof (monthly_qty_value df (i, m)) as H.
  destruct (monthly_qty df !! (i, m)) as [v |].
  - destruct H as [Hne Hv]. split.
    + split; [discriminate | contradiction].
    + intros v' [= <-]. exact Hv.
  - split; [tauto | discriminate].
Qed.

Lemma pivot_columns_NoDup df : NoDup (pivot_columns df).
Proof.
  unfold pivot_columns.
  apply (NoDup_Permutation_proper _ _ (merge_sort_Permutation _ _)).
  apply NoDup_elements.
Qed.

(** Line 62.  In a table where some identified row has a date, the
    pivot has one column per month found on a dated row of an identified
    item, each month once, and a line for an item exactly when one of the
    item's rows has a date.  The cell of a line in a month is the sum of
    the quantities of the item's rows dated in that month, which is 0
    when it has none there: every line has one cell per month of the
    whole table, not only the item's own months. *)
Theorem pivot_cells :
  forall (df : list row) (i : string),
    (exists x, x ∈ df /\ is_Some (item_id x) /\ is_Some (date x)) ->
    NoDup (pivot_columns df) /\
    (forall m, m ∈ pivot_columns df <->
               exists r, r ∈ df /\ is_Some (item_id r) /\
                         exists d, date r = Some d /\ month_end d = m) /\
    (is_Some (pivot df !! i) <->
     exists r, r ∈ df /\ item_id r = Some i /\ is_Some (date r)) /\
    (forall line,
       pivot df !! i = Some line ->
       length line = length (pivot_columns df) /\
       forall n m, pivot_columns df !! n = Some m ->
         exists q, line !! n = Some q /\
                   q == sum (map qty (rows_of_month (i, m) df))).
Proof.
  intros df i _. split; [apply pivot_columns_NoDup |]. split; [| split].
  - intros m. rewrite pivot_columns_monthly. split.
    + intros (i' & (r & d & Hin & Hi & Hd & Hm)%dom_monthly_qty).
      exists r. rewrite Hi. eauto 6.
    + intros (r & Hin & [i' Hi] & d & Hd & Hm). exists i'.
      apply dom_monthly_qty. eauto 6.
  - rewrite <- pivot_index_rows.
    destruct (decide (i ∈ pivot_index df)) as [Hin | Hout].
    + rewrite (pivot_lookup_in _ _ Hin). split; [auto | eauto].
    + rewrite (pivot_lookup_out _ _ Hout). split; [| contradiction].
      intros [x Hx]. discriminate Hx.
  - intros line Hline.
    destruct (decide (i ∈ pivot_index df)) as [Hin | Hout].
    2:{ rewrite (pivot_lookup_out _ _ Hout) in Hline. discriminate Hline. }
    rewrite (pivot_lookup_in _ _ Hin) in Hline. injection Hline as <-.
    split; [unfold pivot_row; apply length_map |].
    intros n m Hn. unfold pivot_row.
    change (map ?f ?l) with (f <$> l). rewrite list_lookup_fmap, Hn. simpl.
    eexists. split; [reflexivity |].
    pose proof (monthly_qty_value df (i, m)) as H.
    destruct (monthly_qty df !! (i, m)) as [v |].
    + apply H.
    + rewrite H. reflexivity.
Qed.

Lemma df_nodate_dated :
  exists x, x ∈ df_nodate /\ is_Some (item_id x) /\ is_Some (date x).
Proof.
  exists (sale "P1" "bolt" 60 10 (Some jan)).
  split; [apply list_elem_of_here |]. split; eexists; reflexivity.
Defined.

Lemma monthly_qty_is_sum_of_month_witness :
  (exists x, x ∈ df_nodate /\ is_Some (item_id x) /\ is_Some (date x)) /\
  (monthly_qty df_nodate !! ("P1"%string, (2024, 2)%Z) = None <->
   rows_of_month ("P1"%string, (2024, 2)%Z) df_nodate = []) /\
  (forall v, monthly_qty df_nodate !! ("P1"%string, (2024, 2)%Z) = Some v ->
             v == sum (map qty (rows_of_month ("P1"%string, (2024, 2)%Z) df_nodate))).
Proof.
  split; [exact df_nodate_dated |].
  exact (monthly_qty_is_sum_of_month df_nodate "P1" (2024, 2)%Z df_nodate_dated).
Defined.

Lemma pivot_cells_witness :
  (exists x, x ∈ df_nodate /\ is_Some (item_id x) /\ is_Some (date x)) /\
  pivot df_nodate !! "P1"%string = Some [10; 10] /\
  NoDup (pivot_columns df_nodate) /\
  (forall m, m ∈ pivot_columns df_nodate <->
             exists r, r ∈ df_nodate /\ is_Some (item_id r) /\
                       exists d, date r = Some d /\ month_end d = m) /\
  (is_Some (pivot df_nodate !! "P1"%string) <->
   exists r, r ∈ df_nodate /\ item_id r = Some "P1"%string /\ is_Some (date r)) /\
  (forall line,
     pivot df_nodate !! "P1"%string = Some line ->
     length line = length (pivot_columns df_nodate) /\
     forall n m, pivot_columns df_nodate !! n = Some m ->
       exists q, line !! n = Some q /\
                 q == sum (map qty (rows_of_month ("P1"%string, m) df_nodate))).
Proof.
  split; [exact df_nodate_dated |].
  split; [vm_compute; reflexivity |].
  exact (pivot_cells df_nodate "P1" df_nodate_dated).
Defined.

(** ** Lines 63-66: values of the coefficient of variation *)

Lemma cv_of_row_finite sqrt l : exists v, cv_of_row sqrt l = Fin v.
Proof.
  unfold cv_of_row, std, mean.
  destruct (length l <=? 1)%nat.
  - exists 0. reflexivity.
  - destruct l as [| x l]; [exists 0; reflexivity |].
    cbv zeta. unfold replace0nan.
    destruct (Qeq_bool (sum (x :: l) / Qofnat (length (x :: l))) 0) eqn:E.
    + exists 0. reflexivity.
    + eexists. unfold fdiv. rewrite E. reflexivity.
Qed.

Lemma cv_of_row_fallback sqrt l :
  (length l <= 1)%nat \/ sum l == 0 -> cv_of_row sqrt l = Fin 0.
Proof.
  intros [Hlen | Hsum]; unfold cv_of_row.
  - unfold std. apply Nat.leb_le in Hlen. rewrite Hlen. reflexivity.
  - assert (Em : replace0nan (mean l) = NaN).
    { unfold mean. destruct l; [reflexivity |]. unfold replace0nan.
      assert (E : Qeq_bool (sum (q :: l) / Qofnat (length (q :: l))) 0 = true).
      { apply Qeq_bool_iff. rewrite Hsum. unfold Qdiv. ring. }
      now rewrite E. }
    rewrite Em. destruct (std sqrt l); reflexivity.
Qed.

(** Lines 61-65.  In a table where some identified row has a date, the
    CV of an item of the classified table is missing (NaN) exactly when
    none of the item's rows has a date, and then its label is Z. *)
Theorem CV_missing_iff_no_dated_row :
  forall (sort_values : list agg_row -> list agg_row) (sqrt : Q -> Q)
         (df : list row) (r : cls_row),
    (exists x, x ∈ df /\ is_Some (item_id x) /\ is_Some (date x)) ->
    r ∈ classify sort_values sqrt df ->
    (CV r = NaN <->
     ~ exists x, x ∈ df /\ item_id x = Some (a_item_id (agg (abc r))) /\
                 is_Some (date x)) /\
    (CV r = NaN -> XYZ r = "Z"%string).
Proof.
  intros sort_values sqrt df r _ (_ & HCV & HXYZ & _)%classify_rows.
  split; [| intros E; rewrite HXYZ, E; reflexivity].
  rewrite <- pivot_index_rows.
  destruct (decide (a_item_id (agg (abc r)) ∈ pivot_index df)) as [Hin | Hout].
  - rewrite (join_cv_in _ _ _ Hin) in HCV.
    destruct (cv_of_row_finite sqrt (pivot_row df (a_item_id (agg (abc r)))))
      as [v Ev].
    rewrite Ev in HCV. rewrite HCV. split; [discriminate | contradiction].
  - rewrite (join_cv_out _ _ _ Hout) in HCV. tauto.
Qed.

Lemma CV_missing_iff_no_dated_row_witness :
  exists r,
    (exists x, x ∈ df_nodate /\ is_Some (item_id x) /\ is_Some (date x)) /\
    r ∈ classify sort_desc Qsqrt df_nodate /\
    (CV r = NaN <->
     ~ exists x, x ∈ df_nodate /\
                 item_id x = Some (a_item_id (agg (abc r))) /\
                 is_Some (date x)) /\
    (CV r = NaN -> XYZ r = "Z"%string).
Proof.
  eexists. 
  assert (H : mkcls (mkabc (mkagg "P2" "nut" 50 5) (Fin (150 # 150)) "C")
                    NaN "Z" "C/Z"
              ∈ classify sort_desc Qsqrt df_nodate).
  { apply list_elem_of_In. vm_compute. right. left. reflexivity. }
  split; [exact df_nodate_dated |]. split; [exact H |].
  exact (CV_missing_iff_no_dated_row sort_desc Qsqrt df_nodate _
           df_nodate_dated H).
Defined.

Lemma rows_of_month_item i m df x :
  x ∈ rows_of_month (i, m) df ->
  x ∈ df /\ item_id x = Some i /\ is_Some (date x).
Proof.
  unfold rows_of_month.
  rewrite (list_elem_of_filter (fun r => month_key r = Some (i, m))).
  intros [Hk Hin]. split; [exact Hin |]. unfold month_key in Hk.
  destruct (item_id x) as [i' |]; [| discriminate Hk].
  destruct (date x) as [d |]; [| discriminate Hk].
  injection Hk as -> _. split; [reflexivity | eauto].
Qed.

(** The line of an item whose dated rows all have quantity 0 holds only
    zeros. *)
Lemma pivot_row_zero df i :
  (forall x, x ∈ df -> item_id x = Some i -> is_Some (date x) -> qty x == 0) ->
  Forall (fun q => q == 0) (pivot_row df i).
Proof.
  intros Hz. unfold pivot_row. apply List.Forall_map, Forall_forall.
  intros m _. pose proof (monthly_qty_value df (i, m)) as H.
  destruct (monthly_qty df !! (i, m)) as [v |]; [| reflexivity].
  destruct H as [_ ->]. apply sum_zero, List.Forall_map, Forall_forall.
  intros x Hx. simpl.
  destruct (rows_of_month_item _ _ _ _ Hx) as (Hin & Hi & Hd). now apply Hz.
Qed.

(** Lines 63-66.  An item with a dated row gets CV 0, hence X, in two
    cases: when the whole table covers a single month, whatever the
    quantities are (the standard deviation of one value is missing), and
    when every dated row of the item has quantity 0 (the mean is 0 and is
    replaced by a missing value).  In both the missing quotient is filled
    with 0. *)
Theorem CV_zero_fallbacks :
  forall (sort_values : list agg_row -> list agg_row) (sqrt : Q -> Q)
         (df : list row) (r : cls_row),
    r ∈ classify sort_values sqrt df ->
    a_item_id (agg (abc r)) ∈ pivot_index df ->
    length (pivot_columns df) = 1%nat \/
    (forall x, x ∈ df -> item_id x = Some (a_item_id (agg (abc r))) ->
               is_Some (date x) -> qty x == 0) ->
    CV r = Fin 0 /\ XYZ r = "X"%string.
Proof.
  intros sort_values sqrt df r (_ & HCV & HXYZ & _)%classify_rows Hin Hcase.
  rewrite (join_cv_in _ _ _ Hin) in HCV.
  rewrite cv_of_row_fallback in HCV.
  - rewrite HXYZ, HCV. split; reflexivity.
  - destruct Hcase as [Hlen | Hz]; [left | right].
    + unfold pivot_row. rewrite length_map, Hlen. lia.
    + now apply sum_zero, pivot_row_zero.
Qed.

Lemma CV_zero_fallbacks_witness :
  exists r,
    r ∈ classify sort_desc Qsqrt df_pareto /\
    a_item_id (agg (abc r)) ∈ pivot_index df_pareto /\
    (length (pivot_columns df_pareto) = 1%nat \/
     (forall x, x ∈ df_pareto -> item_id x = Some (a_item_id (agg (abc r))) ->
                is_Some (date x) -> qty x == 0)) /\
    CV r = Fin 0 /\ XYZ r = "X"%string.
Proof.
  eexists.
  assert (H : mkcls (mkabc (mkagg "P1" "bolt" 700 10) (Fin (700 # 1000)) "A")
                    (Fin 0) "X" "A/X"
              ∈ classify sort_desc Qsqrt df_pareto).
  { apply list_elem_of_In. vm_compute. left. reflexivity. }
  assert (Hi : "P1"%string ∈ pivot_index df_pareto).
  { apply pivot_index_rows. exists (sale "P1" "bolt" 700 10 (Some jan)).
    split; [apply list_elem_of_here |]. split; [reflexivity | eexists; reflexivity]. }
  assert (Hc : length (pivot_columns df_pareto) = 1%nat \/
               (forall x, x ∈ df_pareto -> item_id x = Some "P1"%string ->
                          is_Some (date x) -> qty x == 0)).
  { left. vm_compute. reflexivity. }
  split; [exact H |]. split; [exact Hi |]. split; [exact Hc |].
  exact (CV_zero_fallbacks sort_desc Qsqrt df_pareto _ H Hi Hc).
Defined.

(** ** Lines 67-72: segments and labels *)

Lemma segment_of_labels a x a' x' :
  a ∈ ["A"; "B"; "C"]%string -> a' ∈ ["A"; "B"; "C"]%string ->
  x ∈ ["X"; "Y"; "Z"]%string -> x' ∈ ["X"; "Y"; "Z"]%string ->
  (a ++ "/" ++ x = a' ++ "/" ++ x')%string <-> a = a' /\ x = x'.
Proof.
  rewrite !elem_of_cons, !elem_of_nil.
  intros [-> | [-> | [-> | []]]] [-> | [-> | [-> | []]]]
         [-> | [-> | [-> | []]]] [-> | [-> | [-> | []]]];
    simpl;
    (split;
     [ intros H; first [discriminate H | split; reflexivity]
     | intros [H1 H2]; first [discriminate H1 | discriminate H2 | reflexivity] ]).
Qed.

Lemma classify_labels sort_values sqrt df r :
  r ∈ classify sort_values sqrt df ->
  ABC (abc r) ∈ ["A"; "B"; "C"]%string /\ XYZ r ∈ ["X"; "Y"; "Z"]%string.
Proof.
  intros (Ha & _ & Hx & _)%classify_rows.
  apply abc_classification_rows in Ha as [-> _]. rewrite Hx.
  rewrite !elem_of_cons.
  destruct (abc_label_cases (cum_pct (abc r))) as [-> | [-> | ->]];
    destruct (xyz_label_cases (CV r)) as [-> | [-> | ->]]; auto.
Qed.

(** Lines 67-72.  A segment names one ABC letter and one XYZ letter:
    selecting the single segment made of two letters keeps exactly the
    rows of the classified table that carry both letters. *)
Theorem segment_filter_by_labels :
  forall (sort_values : list agg_row -> list agg_row) (sqrt : Q -> Q)
         (df : list row) (a x : string) (r : cls_row),
    a ∈ ["A"; "B"; "C"]%string -> x ∈ ["X"; "Y"; "Z"]%string ->
    (r ∈ segment_filter [(a ++ "/" ++ x)%string] (classify sort_values sqrt df)
     <-> r ∈ classify sort_values sqrt df /\ ABC (abc r) = a /\ XYZ r = x).
Proof.
  intros sort_values sqrt df a x r Ha Hx. unfold segment_filter.
  rewrite (list_elem_of_filter (fun r => ABC_XYZ r ∈ [(a ++ "/" ++ x)%string])).
  rewrite list_elem_of_singleton. split.
  - intros [Hseg Hr]. split; [exact Hr |].
    destruct (classify_labels _ _ _ _ Hr) as [Ha' Hx'].
    apply classify_rows in Hr as (_ & _ & _ & E). rewrite E in Hseg.
    now apply segment_of_labels in Hseg.
  - intros (Hr & <- & <-). split; [| exact Hr].
    now apply classify_rows in Hr as (_ & _ & _ & E).
Qed.

Lemma segment_filter_by_labels_witness :
  "B"%string ∈ ["A"; "B"; "C"]%string /\ "X"%string ∈ ["X"; "Y"; "Z"]%string /\
  forall r,
    r ∈ segment_filter ["B" ++ "/" ++ "X"]%string (classify sort_desc Qsqrt df_pareto)
    <-> r ∈ classify sort_desc Qsqrt df_pareto /\
        ABC (abc r) = "B"%string /\ XYZ r = "X"%string.
Proof.
  assert (H1 : "B"%string ∈ ["A"; "B"; "C"]%string)
    by (apply list_elem_of_further, list_elem_of_here).
  assert (H2 : "X"%string ∈ ["X"; "Y"; "Z"]%string) by apply list_elem_of_here.
  split; [exact H1 |]. split; [exact H2 |]. intros r.
  exact (segment_filter_by_labels sort_desc Qsqrt df_pareto "B" "X" r H1 H2).
Defined.

(** ** Lines 70-72: the default selection *)

#[local] Instance string_le_total : Total string_le.
Proof. intros a b. unfold string_le. apply String.leb_total. Qed.

Lemma default_abcxyz_elem t s :
  s ∈ default_abcxyz t <-> exists r, r ∈ t /\ ABC_XYZ r = s.
Proof.
  unfold default_abcxyz.
  rewrite merge_sort_Permutation, elem_of_remove_dups.
  change (map ABC_XYZ t) with (ABC_XYZ <$> t). rewrite list_elem_of_fmap.
  split; intros (r & H1 & H2); exists r; auto.
Qed.

(** Lines 70-72.  The choices offered for the segment filter are the
    segments present in the classified table, each once, in alphabetical
    order; they are the default selection, and with it the filter keeps
    the whole table. *)
Theorem default_selection_keeps_table :
  forall t : list cls_row,
    segment_filter (default_abcxyz t) t = t /\
    NoDup (default_abcxyz t) /\
    Sorted string_le (default_abcxyz t) /\
    (forall s, s ∈ default_abcxyz t <-> exists r, r ∈ t /\ ABC_XYZ r = s).
Proof.
  intros t. split; [| split; [| split]].
  - unfold segment_filter.
    assert (H : forall l : list cls_row,
              (forall r, r ∈ l -> ABC_XYZ r ∈ default_abcxyz t) ->
              filter (fun r => ABC_XYZ r ∈ default_abcxyz t) l = l).
    { induction l as [| r l IH]; intros Hl; [reflexivity |].
      rewrite filter_cons. destruct (decide _) as [_ | Hn].
      - f_equal. apply IH. intros r' Hr'. apply Hl.
        now apply list_elem_of_further.
      - exfalso. apply Hn, Hl, list_elem_of_here. }
    apply H. intros r Hr. apply default_abcxyz_elem. eauto.
  - unfold default_abcxyz.
    apply (NoDup_Permutation_proper _ _ (merge_sort_Permutation _ _)).
    apply NoDup_remove_dups.
  - apply Sorted_merge_sort. apply _.
  - apply default_abcxyz_elem.
Qed.

Example default_abcxyz_pareto :
  default_abcxyz (classify sort_desc Qsqrt df_pareto) = ["A/X"; "B/X"; "C/X"]%string /\
  default_abcxyz (classify sort_desc Qsqrt df_zero) = ["C/Z"]%string.
Proof. split; vm_compute; reflexivity. Qed.

(** ** Lines 49-52: the category choices *)

(** Lines 49-52.  The category choices are "All" followed by the values
    found in the category column, empty cells left out.  Every value of
    the column is offered, and every choice other than "All" selects at
    least one row; "All" selects the whole table. *)
Theorem category_options_select_rows :
  forall (col : string) (df : list row),
    (forall v, v ∈ category_options col df <->
               v = "All"%string \/ exists r, r ∈ df /\ cell_text col r = Some v) /\
    (forall v, v ∈ category_options col df -> v <> "All"%string ->
               category_filter (Some col) v df <> []) /\
    category_filter (Some col) "All" df = df.
Proof.
  intros col df.
  assert (Hopt : forall v, v ∈ category_options col df <->
            v = "All"%string \/ exists r, r ∈ df /\ cell_text col r = Some v).
  { intros v. unfold category_options.
    rewrite elem_of_cons, merge_sort_Permutation, elem_of_remove_dups.
    rewrite list_elem_of_omap. reflexivity. }
  split; [exact Hopt |]. split; [| reflexivity].
  intros v Hv Hne. apply Hopt in Hv as [-> | (r & Hin & Hr)]; [contradiction |].
  unfold category_filter. apply String.eqb_neq in Hne. rewrite Hne.
  intros E.
  assert (Hr' : r ∈ filter (fun r => cell_text col r = Some v) df).
  { apply (list_elem_of_filter (fun r => cell_text col r = Some v)). auto. }
  rewrite E in Hr'. now apply elem_of_nil in Hr'.
Qed.

Example category_options_groups :
  category_options "Group" df_groups = ["All"; "brass"; "steel"]%string /\
  category_options "description" df_groups
  = ["All"; "bolt"; "nut"; "washer"]%string.
Proof. split; vm_compute; reflexivity. Qed.
